(** * The managed-thread primitive of juce_Thread.cpp

    A shallow embedding of [Thread] (start, stop, priority, the entry-point
    trampoline) and of the file-static registry [runningThreads], followed by
    the properties of the lifecycle that the code guarantees.

    Layout:
    - data model: the [Thread] object, the registry, native threads, the log;
    - a state-and-exception monad for the sequential reading of each method;
    - the trampoline, once as the method [threadEntryPoint] and once cut into
      its statements ([tramp_step]) so that other threads can be interleaved;
    - the polling methods ([waitForThreadToExit], [stopThread],
      [stopAllThreads]) with explicit preemption points;
    - the lifecycle invariant and the theorems.

    How concurrency is read.  A statement is one step, and the steps of the
    threads are interleaved.  A call of a method is evaluated as a whole; the
    threads that move while it goes on are the native threads inside their
    trampolines, at the points where the caller can be preempted: each
    [sleep], and each place where the caller reads again what a trampoline
    writes.  [startThread] and the forced-termination block of [stopThread]
    run under [startStopLock] and are one step each.  Time is not measured: a
    sleep is a preemption point, and the wait at the start gate is answered by
    the state of the event at the moment the native thread moves on. *)

From Stdlib Require Import ZArith String.
From stdpp Require Import base option list gmap strings.

Set Default Proof Using "Type".

(** ** Data model *)

(** A [Thread*] is an address, a [nat]; [null] is the null pointer. *)
Definition null : nat := 0.

(** Modelled from the spec: [WaitableEvent] (juce_WaitableEvent.h is not part
    of the sources).  A binary signal: [signal] sets it, and it stays set; a
    [wait] returns [true] iff the event is signalled when the wait is over. *)
Record WaitableEvent := { signalled : bool }.

Definition WaitableEvent_signal (e : WaitableEvent) : WaitableEvent :=
  {| signalled := true |}.

(** The data members of [Thread], as the constructor initialises them. *)
Record Thread := mkThread {
  threadName_ : string;
  threadHandle_ : Z;            (* void*; 0 when no native thread exists *)
  threadPriority_ : Z;
  threadId_ : Z;
  affinityMask_ : Z;            (* uint32 *)
  threadShouldExit_ : bool;
  startSuspensionEvent_ : WaitableEvent;
  defaultEvent_ : WaitableEvent
}.

(** [Thread::Thread (const String& threadName)] *)
Definition Thread_ctor (threadName : string) : Thread :=
  {| threadName_ := threadName;
     threadHandle_ := 0;
     threadPriority_ := 5;
     threadId_ := 0;
     affinityMask_ := 0;
     threadShouldExit_ := false;
     startSuspensionEvent_ := {| signalled := false |};
     defaultEvent_ := {| signalled := false |} |}.

Definition set_threadHandle_ (v : Z) (T : Thread) : Thread :=
  mkThread (threadName_ T) v (threadPriority_ T) (threadId_ T)
           (affinityMask_ T) (threadShouldExit_ T)
           (startSuspensionEvent_ T) (defaultEvent_ T).

Definition set_threadPriority_ (v : Z) (T : Thread) : Thread :=
  mkThread (threadName_ T) (threadHandle_ T) v (threadId_ T)
           (affinityMask_ T) (threadShouldExit_ T)
           (startSuspensionEvent_ T) (defaultEvent_ T).

Definition set_threadId_ (v : Z) (T : Thread) : Thread :=
  mkThread (threadName_ T) (threadHandle_ T) (threadPriority_ T) v
           (affinityMask_ T) (threadShouldExit_ T)
           (startSuspensionEvent_ T) (defaultEvent_ T).

Definition set_affinityMask_ (v : Z) (T : Thread) : Thread :=
  mkThread (threadName_ T) (threadHandle_ T) (threadPriority_ T) (threadId_ T)
           v (threadShouldExit_ T)
           (startSuspensionEvent_ T) (defaultEvent_ T).

Definition set_threadShouldExit_ (v : bool) (T : Thread) : Thread :=
  mkThread (threadName_ T) (threadHandle_ T) (threadPriority_ T) (threadId_ T)
           (affinityMask_ T) v
           (startSuspensionEvent_ T) (defaultEvent_ T).

Definition signal_startSuspensionEvent_ (T : Thread) : Thread :=
  mkThread (threadName_ T) (threadHandle_ T) (threadPriority_ T) (threadId_ T)
           (affinityMask_ T) (threadShouldExit_ T)
           (WaitableEvent_signal (startSuspensionEvent_ T)) (defaultEvent_ T).

Definition signal_defaultEvent_ (T : Thread) : Thread :=
  mkThread (threadName_ T) (threadHandle_ T) (threadPriority_ T) (threadId_ T)
           (affinityMask_ T) (threadShouldExit_ T)
           (startSuspensionEvent_ T) (WaitableEvent_signal (defaultEvent_ T)).

(** Where a native thread stands in [Thread::threadEntryPoint]; one program
    point per statement of the function (the line it is about to execute). *)
Inductive PC :=
  | pcEntry          (* created, about to register          (lines 58-61) *)
  | pcCaptureId      (* threadId_ = getCurrentThreadId()    (line 65)     *)
  | pcSetName        (* juce_setCurrentThreadName           (lines 67-68) *)
  | pcGate           (* startSuspensionEvent_.wait (10000)  (line 70)     *)
  | pcAffinity       (* setCurrentThreadAffinityMask        (lines 72-73) *)
  | pcRun            (* thread->run()                       (line 75)     *)
  | pcDeregister     (* runningThreads.removeValue          (lines 80-85) *)
  | pcCloseHandle    (* juce_CloseThreadHandle, JUCE_WIN32  (lines 87-89) *)
  | pcResetHandle    (* threadHandle_ = 0                   (line 91)     *)
  | pcResetId        (* threadId_ = 0                       (line 92)     *)
  | pcDone           (* the function has returned                          *)
  | pcCrashed.       (* an exception left the function                     *)

Global Instance PC_eq_dec : EqDecision PC.
Proof. solve_decision. Defined.

(** A native thread made by [juce_createThread]: the [Thread] it was given as
    user data, where it stands, and whether it can still run. *)
Record Native := mkNative {
  owner : nat;
  pc : PC;
  alive : bool
}.

(** How the user's [run()] ends when it ends. *)
Inductive RunOutcome := Returns | Throws.

(** What the log records: the registry lock, the registry, the calls into the
    platform layer and into user code, in the order they happen. *)
Inductive Event :=
  | EvLock                                   (* runningThreadsLock entered *)
  | EvUnlock                                 (* runningThreadsLock left    *)
  | EvRegistryAdd (t : nat)
  | EvRegistryRemove (t : nat)
  | EvRegistryRead (index : nat)
  | EvCreateThread (userData : nat) (handle : Z)
  | EvKillThread (handle : Z)
  | EvSetThreadPriority (handle priority : Z) (worked : bool)
  | EvSetCurrentThreadName (name : string)
  | EvCloseThreadHandle (handle : Z)
  | EvGetCurrentThreadId (id : Z)
  | EvSetAffinity (mask : Z)
  | EvGateWait (ms : Z) (result : bool)
  | EvRun (t : nat)
  | EvSleep (ms : Z)
  | EvLog (msg : string).

(** One move of another thread: the native thread with this handle executes
    its next statement; the outcome is used if that statement is [run()]. *)
Definition EnvStep : Type := Z * RunOutcome.

(** The whole process: the [Thread] objects by address, the static
    [runningThreads] array, the native threads by handle, the log, and the
    scheduler's tape: what the other threads do at each coming preemption
    point of the thread whose call is being evaluated. *)
Record World := mkWorld {
  heap : gmap nat Thread;
  runningThreads : list nat;
  natives : gmap Z Native;
  trace : list Event;
  tape : list (list EnvStep)
}.

Definition set_heap (f : gmap nat Thread → gmap nat Thread) (w : World) : World :=
  mkWorld (f (heap w)) (runningThreads w) (natives w) (trace w) (tape w).

Definition set_runningThreads (f : list nat → list nat) (w : World) : World :=
  mkWorld (heap w) (f (runningThreads w)) (natives w) (trace w) (tape w).

Definition set_natives (f : gmap Z Native → gmap Z Native) (w : World) : World :=
  mkWorld (heap w) (runningThreads w) (f (natives w)) (trace w) (tape w).

Definition set_tape (tp : list (list EnvStep)) (w : World) : World :=
  mkWorld (heap w) (runningThreads w) (natives w) (trace w) tp.

Definition log (e : Event) (w : World) : World :=
  mkWorld (heap w) (runningThreads w) (natives w) (trace w ++ [e]) (tape w).

(** [this->field]: reading through a pointer that names no object is undefined
    in C++; the model reads a freshly constructed object there. *)
Definition deref (this : nat) (w : World) : Thread :=
  default (Thread_ctor "") (heap w !! this).

Definition update (this : nat) (f : Thread → Thread) (w : World) : World :=
  set_heap (insert this (f (deref this w))) w.

(** Modelled from the spec: [VoidArray] (juce_VoidArray.h is not part of the
    sources), a collection with [add] and a removal by linear scan.  [add]
    appends, [removeValue] removes the first occurrence it finds, and
    [operator[]] answers a null pointer out of range, which is how lines
    286-290 detect the empty array. *)
Definition VoidArray_add (t : nat) (a : list nat) : list nat := a ++ [t].

Fixpoint VoidArray_removeValue (t : nat) (a : list nat) : list nat :=
  match a with
  | [] => []
  | x :: a' => if decide (x = t) then a' else x :: VoidArray_removeValue t a'
  end.

Definition VoidArray_index (a : list nat) (i : nat) : nat :=
  default null (a !! i).

(** ** Sequential code: state and exceptions *)

Inductive Result (A : Type) :=
  | Normal (a : A)
  | Raised.
Arguments Normal {A} a.
Arguments Raised {A}.

Definition M (A : Type) : Type := World → Result A * World.

Definition ret {A} (a : A) : M A := fun w => (Normal a, w).

Definition bind {A B} (c : M A) (k : A → M B) : M B :=
  fun w => match c w with
           | (Normal a, w') => k a w'
           | (Raised, w') => (Raised, w')
           end.

Definition throw {A} : M A := fun w => (Raised, w).

Definition gets {A} (f : World → A) : M A := fun w => (Normal (f w), w).

Definition modify (f : World → World) : M unit := fun w => (Normal tt, f w).

Definition when (b : bool) (c : M unit) : M unit := if b then c else ret tt.

Definition exec {A} (c : M A) (w : World) : World := snd (c w).

Definition result {A} (c : M A) (w : World) : Result A := fst (c w).

Declare Scope juce_scope.
Delimit Scope juce_scope with juce.
Notation "x <- c ;; k" := (bind c (fun x => k))
  (at level 100, c at next level, right associativity) : juce_scope.
Notation "c ;; k" := (bind c (fun _ => k))
  (at level 100, right associativity) : juce_scope.
Local Open Scope juce_scope.

(** Modelled from the spec: the macros [JUCE_TRY] and [JUCE_CATCH_ALL_ASSERT]
    (juce_StandardHeader.h is not part of the sources): whatever the guarded
    block throws is caught at this boundary, and execution goes on after it. *)
Definition JUCE_TRY_CATCH_ALL_ASSERT (body : M unit) : M unit :=
  fun w => match body w with
           | (Normal _, w') => (Normal tt, w')
           | (Raised, w') => (Normal tt, w')
           end.

(** [const ScopedLock sl (runningThreadsLock)] around a block. *)
Definition ScopedLock_runningThreadsLock {A} (body : M A) : M A :=
  modify (log EvLock) ;;
  r <- body ;;
  modify (log EvUnlock) ;;
  ret r.

(** The user's [run()], as far as this file can see it: it is entered, and it
    either returns or throws. *)
Definition run (o : RunOutcome) (thread : nat) : M unit :=
  modify (log (EvRun thread)) ;;
  match o with
  | Returns => ret tt
  | Throws => throw
  end.

(** ** The platform layer and the methods of [Thread] *)

(** The functions "implemented in the platform-specific code" (lines 42-49)
    form an interface: the handle [juce_createThread] answers with (null when
    no thread could be made), whether [juce_setThreadPriority] worked, the
    system's identifier of a native thread, and whether the build is the
    Windows one.  The answers may depend on everything that happened so far. *)
Class Platform := {
  JUCE_WIN32 : bool;
  createThread_answer : World → nat → Z;
  setThreadPriority_answer : World → Z → Z → bool;
  threadId_of : Z → Z
}.

Section Methods.
Context `{Platform}.

(** [void* juce_createThread (void* userData)]: a new native thread that will
    enter the trampoline with [userData]. *)
Definition juce_createThread (userData : nat) : M Z :=
  fun w =>
    let h := createThread_answer w userData in
    let w' := if decide (h = 0%Z) then w
              else set_natives (insert h (mkNative userData pcEntry true)) w in
    (Normal h, log (EvCreateThread userData h) w').

Definition terminate (n : Native) : Native := mkNative (owner n) (pc n) false.

(** [void juce_killThread (void* handle)] *)
Definition juce_killThread (handle : Z) : M unit :=
  modify (fun w => log (EvKillThread handle)
                       (set_natives (alter terminate handle) w)).

(** [bool juce_setThreadPriority (void* handle, int priority)] *)
Definition juce_setThreadPriority (handle priority : Z) : M bool :=
  fun w =>
    let worked := setThreadPriority_answer w handle priority in
    (Normal worked, log (EvSetThreadPriority handle priority worked) w).

(** [void juce_setCurrentThreadName (const String& name)] *)
Definition juce_setCurrentThreadName (name : string) : M unit :=
  modify (log (EvSetCurrentThreadName name)).

(** [void juce_CloseThreadHandle (void* handle)] *)
Definition juce_CloseThreadHandle (handle : Z) : M unit :=
  modify (log (EvCloseThreadHandle handle)).

(** [Thread::getCurrentThreadId()], called on the native thread [me]. *)
Definition getCurrentThreadId (me : Z) : M Z :=
  modify (log (EvGetCurrentThreadId (threadId_of me))) ;;
  ret (threadId_of me).

(** [Thread::setCurrentThreadAffinityMask (uint32)] *)
Definition setCurrentThreadAffinityMask (mask : Z) : M unit :=
  modify (log (EvSetAffinity mask)).

(** [Logger::writeToLog] *)
Definition Logger_writeToLog (msg : string) : M unit :=
  modify (log (EvLog msg)).

Definition isNotEmpty (s : string) : bool := negb (String.eqb s "").

(** *** The trampoline, statement by statement *)

(** lines 58-61 *)
Definition tep_register (thread : nat) : M unit :=
  ScopedLock_runningThreadsLock
    (modify (log (EvRegistryAdd thread)) ;;
     modify (set_runningThreads (VoidArray_add thread))).

(** line 65 *)
Definition tep_captureId (me : Z) (thread : nat) : M unit :=
  id <- getCurrentThreadId me ;;
  modify (update thread (set_threadId_ id)).

(** lines 67-68 *)
Definition tep_setName (thread : nat) : M unit :=
  name <- gets (fun w => threadName_ (deref thread w)) ;;
  when (isNotEmpty name) (juce_setCurrentThreadName name).

(** line 70: the wait is over; its answer is whether the gate is signalled. *)
Definition tep_gate (thread : nat) : M bool :=
  b <- gets (fun w => signalled (startSuspensionEvent_ (deref thread w))) ;;
  modify (log (EvGateWait 10000 b)) ;;
  ret b.

(** lines 72-73 *)
Definition tep_affinity (thread : nat) : M unit :=
  mask <- gets (fun w => affinityMask_ (deref thread w)) ;;
  when (negb (mask =? 0)%Z) (setCurrentThreadAffinityMask mask).

(** lines 80-85; [jassert] is a debug-build diagnostic and changes nothing. *)
Definition tep_deregister (thread : nat) : M unit :=
  ScopedLock_runningThreadsLock
    (modify (log (EvRegistryRemove thread)) ;;
     modify (set_runningThreads (VoidArray_removeValue thread))).

(** lines 87-89 *)
Definition tep_closeHandle (thread : nat) : M unit :=
  when JUCE_WIN32
    (h <- gets (fun w => threadHandle_ (deref thread w)) ;;
     juce_CloseThreadHandle h).

(** line 91 *)
Definition tep_resetHandle (thread : nat) : M unit :=
  modify (update thread (set_threadHandle_ 0)).

(** line 92 *)
Definition tep_resetId (thread : nat) : M unit :=
  modify (update thread (set_threadId_ 0)).

(** lines 65-76: what stands between [JUCE_TRY] and [JUCE_CATCH_ALL_ASSERT];
    [o] is how [run()] ends if it is reached. *)
Definition tep_guarded_block (me : Z) (o : RunOutcome) (thread : nat) : M unit :=
  tep_captureId me thread ;;
  tep_setName thread ;;
  signalledInTime <- tep_gate thread ;;
  when signalledInTime
    (tep_affinity thread ;;
     run o thread).

(** [void Thread::threadEntryPoint (Thread* const thread)], run to its end on
    the native thread [me]. *)
Definition threadEntryPoint (me : Z) (o : RunOutcome) (thread : nat) : M unit :=
  tep_register thread ;;
  JUCE_TRY_CATCH_ALL_ASSERT (tep_guarded_block me o thread) ;;
  tep_deregister thread ;;
  tep_closeHandle thread ;;
  tep_resetHandle thread ;;
  tep_resetId thread.

(** [void juce_threadEntryPoint (void* userData)], the entry the platform
    code calls on the new native thread. *)
Definition juce_threadEntryPoint (me : Z) (o : RunOutcome) (userData : nat)
    : M unit :=
  threadEntryPoint me o userData.

(** The same function, one statement at a time.  A statement inside the
    guarded block that throws continues after the handler (line 80); one
    outside it would take the native thread down. *)
Definition goto (me : Z) (thread : nat) (p : PC) (w : World) : World :=
  set_natives (insert me (mkNative thread p true)) w.

Definition plain {A} (me : Z) (thread : nat) (c : M A) (next : A → PC)
    (w : World) : World :=
  match c w with
  | (Normal a, w') => goto me thread (next a) w'
  | (Raised, w') => goto me thread pcCrashed w'
  end.

Definition guarded {A} (me : Z) (thread : nat) (c : M A) (next : A → PC)
    (w : World) : World :=
  match c w with
  | (Normal a, w') => goto me thread (next a) w'
  | (Raised, w') => goto me thread pcDeregister w'
  end.

Definition tramp_step (s : EnvStep) (w : World) : World :=
  let '(me, o) := s in
  match natives w !! me with
  | None => w
  | Some n =>
    if alive n then
      let thread := owner n in
      match pc n with
      | pcEntry => plain me thread (tep_register thread) (fun _ => pcCaptureId) w
      | pcCaptureId => guarded me thread (tep_captureId me thread) (fun _ => pcSetName) w
      | pcSetName => guarded me thread (tep_setName thread) (fun _ => pcGate) w
      | pcGate => guarded me thread (tep_gate thread)
                    (fun b : bool => if b then pcAffinity else pcDeregister) w
      | pcAffinity => guarded me thread (tep_affinity thread) (fun _ => pcRun) w
      | pcRun => guarded me thread (run o thread) (fun _ => pcDeregister) w
      | pcDeregister => plain me thread (tep_deregister thread) (fun _ => pcCloseHandle) w
      | pcCloseHandle => plain me thread (tep_closeHandle thread) (fun _ => pcResetHandle) w
      | pcResetHandle => plain me thread (tep_resetHandle thread) (fun _ => pcResetId) w
      | pcResetId => plain me thread (tep_resetId thread) (fun _ => pcDone) w
      | pcDone => w
      | pcCrashed => w
      end
    else w
  end.

(** A preemption point of the calling thread: the other threads make the
    moves the scheduler's tape holds for it. *)
Definition yield (w : World) : World :=
  match tape w with
  | [] => w
  | steps :: rest => foldl (fun w' s => tramp_step s w') (set_tape rest w) steps
  end.

(** *** The methods *)

(** [threadHandle_ != 0] *)
Definition running (this : nat) (w : World) : bool :=
  negb (threadHandle_ (deref this w) =? 0)%Z.

(** [bool Thread::isThreadRunning() const] *)
Definition isThreadRunning (this : nat) : M bool := gets (running this).

(** [void Thread::signalThreadShouldExit()] *)
Definition signalThreadShouldExit (this : nat) : M unit :=
  modify (update this (set_threadShouldExit_ true)).

(** [bool Thread::threadShouldExit() const] *)
Definition threadShouldExit (this : nat) : M bool :=
  gets (fun w => threadShouldExit_ (deref this w)).

(** [void Thread::notify() const] *)
Definition notify (this : nat) : M unit :=
  modify (update this signal_defaultEvent_).

(** [Thread::ThreadID Thread::getThreadId() const] *)
Definition getThreadId (this : nat) : M Z :=
  gets (fun w => threadId_ (deref this w)).

(** [void Thread::setAffinityMask (const uint32 affinityMask)] *)
Definition setAffinityMask (this : nat) (affinityMask : Z) : M unit :=
  modify (update this (set_affinityMask_ affinityMask)).

(** [int Thread::getNumRunningThreads()] *)
Definition getNumRunningThreads : M Z :=
  gets (fun w => Z.of_nat (length (runningThreads w))).

(** lines 263-271: [for (int i = runningThreads.size(); --i >= 0;)], the
    scan for the entry whose [threadId_] is [thisId], from the last entry to
    the first; a null pointer when there is none. *)
Fixpoint getCurrentThread_scan (i : nat) (thisId : Z) (w : World) : nat :=
  match i with
  | O => null
  | S i' =>
    let t := VoidArray_index (runningThreads w) i' in
    if decide (threadId_ (deref t w) = thisId) then t
    else getCurrentThread_scan i' thisId w
  end.

(** [Thread* Thread::getCurrentThread()], called on the thread whose
    identifier [getCurrentThreadId()] answers [thisId]. *)
Definition getCurrentThread (thisId : Z) : M nat :=
  ScopedLock_runningThreadsLock
    (gets (fun w => getCurrentThread_scan (length (runningThreads w)) thisId w)).

(** [bool Thread::setPriority (const int priority)] *)
Definition setPriority (this : nat) (priority : Z) : M bool :=
  h <- gets (fun w => threadHandle_ (deref this w)) ;;
  worked <- juce_setThreadPriority h priority ;;
  when worked (modify (update this (set_threadPriority_ priority))) ;;
  ret worked.

(** [bool Thread::setCurrentThreadPriority (const int priority)] *)
Definition setCurrentThreadPriority (priority : Z) : M bool :=
  juce_setThreadPriority 0 priority.

(** [void Thread::startThread()].  The method holds [startStopLock]; creating
    the native thread, storing its handle and opening the start gate are one
    step for the other threads, as the new thread waits at the gate. *)
Definition startThread (this : nat) : M unit :=
  modify (update this (set_threadShouldExit_ false)) ;;
  h <- gets (fun w => threadHandle_ (deref this w)) ;;
  when (h =? 0)%Z
    (h' <- juce_createThread this ;;
     modify (update this (set_threadHandle_ h')) ;;
     p <- gets (fun w => threadPriority_ (deref this w)) ;;
     _ <- juce_setThreadPriority h' p ;;
     modify (update this signal_startSuspensionEvent_)).

(** [void Thread::startThread (const int priority)] *)
Definition startThread_priority (this : nat) (priority : Z) : M unit :=
  h <- gets (fun w => threadHandle_ (deref this w)) ;;
  if (h =? 0)%Z then
    modify (update this (set_threadPriority_ priority)) ;;
    startThread this
  else
    _ <- setPriority this priority ;;
    ret tt.

(** [sleep (ms)]: the calling thread is off the processor. *)
Definition sleep (ms : Z) (w : World) : World := yield (log (EvSleep ms) w).

Definition sleepMsPerIteration : Z := 5.

(** [bool Thread::waitForThreadToExit (const int timeOutMilliseconds) const].
    The loop may go on for ever, so it is given a number of polls it may make;
    [None] says they were used up.  [count] stays within [int]: it is only
    decremented when [timeOutMilliseconds > 0], from [timeOutMilliseconds / 5]
    down to [-1].  The [jassert]s of this file are debug-build diagnostics
    that change nothing, and are left out; what those of lines 162 and 182
    ask for is built in: the calling thread is none of the native threads
    that the scheduler's tape moves while the call goes on. *)
Fixpoint waitForThreadToExit_loop (polls : nat) (this : nat)
    (timeOutMilliseconds count : Z) (w : World) : option (bool * World) :=
  match polls with
  | O => None
  | S polls' =>
    if running this w then
      let count' := if (0 <? timeOutMilliseconds)%Z then (count - 1)%Z else count in
      if (0 <? timeOutMilliseconds)%Z && (count' <? 0)%Z then Some (false, w)
      else waitForThreadToExit_loop polls' this timeOutMilliseconds count'
             (sleep sleepMsPerIteration w)
    else Some (true, w)
  end.

Definition waitForThreadToExit (polls : nat) (this : nat)
    (timeOutMilliseconds : Z) (w : World) : option (bool * World) :=
  waitForThreadToExit_loop polls this timeOutMilliseconds
    (Z.quot timeOutMilliseconds sleepMsPerIteration) w.

(** [void Thread::stopThread (const int timeOutMilliseconds)], in the three
    parts its second test of [isThreadRunning()] separates. *)

(** lines 188-192, up to the moment line 194 reads the handle again *)
Definition stopThread_signal_and_wait (polls : nat) (this : nat)
    (timeOutMilliseconds : Z) (w : World) : option World :=
  let w1 := exec (signalThreadShouldExit this ;; notify this) w in
  if decide (timeOutMilliseconds ≠ 0%Z) then
    match waitForThreadToExit polls this timeOutMilliseconds w1 with
    | Some (_, w2) => Some (yield w2)
    | None => None
    end
  else Some (yield w1).

(** lines 199-207; the target cannot run any more and the caller holds
    [startStopLock], so the block is one step for the other threads. *)
Definition stopThread_kill (this : nat) : M unit :=
  Logger_writeToLog "!! killing thread by force !!" ;;
  h <- gets (fun w => threadHandle_ (deref this w)) ;;
  juce_killThread h ;;
  modify (update this (set_threadHandle_ 0)) ;;
  modify (update this (set_threadId_ 0)) ;;
  ScopedLock_runningThreadsLock
    (modify (log (EvRegistryRemove this)) ;;
     modify (set_runningThreads (VoidArray_removeValue this))).

Definition stopThread (polls : nat) (this : nat) (timeOutMilliseconds : Z)
    (w : World) : option World :=
  if running this w then
    match stopThread_signal_and_wait polls this timeOutMilliseconds w with
    | Some w2 =>
      if running this w2 then Some (exec (stopThread_kill this) w2)
      else Some w2
    | None => None
    end
  else Some w.

(** [void Thread::stopAllThreads (const int timeOutMilliseconds)] *)

(** lines 279-280: [for (int i = runningThreads.size(); --i >= 0;)] *)
Fixpoint stopAllThreads_signal (i : nat) : M unit :=
  match i with
  | O => ret tt
  | S i' =>
    t <- gets (fun w => VoidArray_index (runningThreads w) i') ;;
    signalThreadShouldExit t ;;
    stopAllThreads_signal i'
  end.

(** lines 276-281 *)
Definition stopAllThreads_signalAll : M unit :=
  ScopedLock_runningThreadsLock
    (n <- gets (fun w => length (runningThreads w)) ;;
     stopAllThreads_signal n).

(** lines 285-287 *)
Definition stopAllThreads_head : M nat :=
  modify (log EvLock) ;;
  modify (log (EvRegistryRead 0)) ;;
  t <- gets (fun w => VoidArray_index (runningThreads w) 0) ;;
  modify (log EvUnlock) ;;
  ret t.

(** lines 283-293: the loop is given a number of rounds it may make, and each
    [stopThread] its number of polls.  The calling thread can be preempted
    before it takes the lock and after it has released it. *)
Fixpoint stopAllThreads_loop (rounds polls : nat) (timeOutMilliseconds : Z)
    (w : World) : option World :=
  match rounds with
  | O => None
  | S rounds' =>
    match stopAllThreads_head (yield w) with
    | (Normal t, w1) =>
      if decide (t = null) then Some w1
      else
        match stopThread polls t timeOutMilliseconds (yield w1) with
        | Some w2 => stopAllThreads_loop rounds' polls timeOutMilliseconds w2
        | None => None
        end
    | (Raised, _) => None
    end
  end.

Definition stopAllThreads (rounds polls : nat) (timeOutMilliseconds : Z)
    (w : World) : option World :=
  stopAllThreads_loop rounds polls timeOutMilliseconds
    (exec stopAllThreads_signalAll w).

End Methods.

(** [Thread::~Thread()]: a bounded attempt to stop, never an endless wait. *)
Definition Thread_destructor `{Platform} (polls : nat) (this : nat)
    (w : World) : option World :=
  stopThread polls this 100 w.

(** What the guarded block of the trampoline logs (lines 65-76) when it is
    entered on the [Thread] value [T]. *)
Definition guarded_block_log `{Platform} (me : Z) (thread : nat) (T : Thread)
    : list Event :=
  [EvGetCurrentThreadId (threadId_of me)] ++
  (if isNotEmpty (threadName_ T)
   then [EvSetCurrentThreadName (threadName_ T)] else []) ++
  [EvGateWait 10000 (signalled (startSuspensionEvent_ T))] ++
  (if signalled (startSuspensionEvent_ T)
   then (if (affinityMask_ T =? 0)%Z then [] else [EvSetAffinity (affinityMask_ T)])
        ++ [EvRun thread]
   else []).

(** ** The lifecycle invariant *)

(** The native thread is between its registration and its deregistration. *)
Definition registered (p : PC) : bool :=
  match p with
  | pcCaptureId | pcSetName | pcGate | pcAffinity | pcRun | pcDeregister => true
  | _ => false
  end.

(** The native thread has not yet reset [threadHandle_]. *)
Definition holds_handle (p : PC) : bool :=
  match p with
  | pcResetId | pcDone | pcCrashed => false
  | _ => true
  end.

(** What ties the [Thread] objects, the registry and the native threads
    together whenever no call is in the middle of [startThread] or of the
    forced-termination block of [stopThread]. *)
Record Inv (w : World) : Prop := {
  inv_nodup : NoDup (runningThreads w);
  inv_natives : ∀ h n, natives w !! h = Some n →
    h ≠ 0%Z ∧ owner n ≠ null ∧ pc n ≠ pcCrashed;
  inv_idle : ∀ t, threadHandle_ (deref t w) = 0%Z → t ∉ runningThreads w;
  inv_running : ∀ t, threadHandle_ (deref t w) ≠ 0%Z →
    ∃ n, natives w !! threadHandle_ (deref t w) = Some n ∧
         owner n = t ∧ alive n = true ∧ holds_handle (pc n) = true ∧
         (t ∈ runningThreads w ↔ registered (pc n) = true);
  inv_stale : ∀ h n, natives w !! h = Some n →
    threadHandle_ (deref (owner n) w) ≠ h →
    alive n = false ∨ holds_handle (pc n) = false
}.

(** The contract of [juce_createThread]: the handle of a new native thread
    names no native thread that already exists. *)
Definition handles_fresh `{Platform} : Prop :=
  ∀ w userData, createThread_answer w userData ≠ 0%Z →
                natives w !! createThread_answer w userData = None.

(** The worlds a process can be in: objects are constructed, methods are
    called on them, native threads move, the scheduler plans. *)
Inductive reachable `{Platform} : World → Prop :=
  | reach_init : reachable (mkWorld ∅ [] ∅ [] [])
  | reach_construct w addr name :
      reachable w → addr ≠ null → heap w !! addr = None →
      reachable (set_heap (insert addr (Thread_ctor name)) w)
  | reach_startThread w this :
      reachable w → this ≠ null → is_Some (heap w !! this) →
      reachable (exec (startThread this) w)
  | reach_startThread_priority w this priority :
      reachable w → this ≠ null → is_Some (heap w !! this) →
      reachable (exec (startThread_priority this priority) w)
  | reach_setPriority w this priority :
      reachable w → this ≠ null → is_Some (heap w !! this) →
      reachable (exec (setPriority this priority) w)
  | reach_setAffinityMask w this mask :
      reachable w → this ≠ null → is_Some (heap w !! this) →
      reachable (exec (setAffinityMask this mask) w)
  | reach_signalThreadShouldExit w this :
      reachable w → this ≠ null → is_Some (heap w !! this) →
      reachable (exec (signalThreadShouldExit this) w)
  | reach_notify w this :
      reachable w → this ≠ null → is_Some (heap w !! this) →
      reachable (exec (notify this) w)
  | reach_native w s :
      reachable w → reachable (tramp_step s w)
  | reach_schedule w tp :
      reachable w → reachable (set_tape tp w)
  | reach_stopThread w polls this timeOutMilliseconds w' :
      reachable w → this ≠ null → is_Some (heap w !! this) →
      stopThread polls this timeOutMilliseconds w = Some w' →
      reachable w'
  | reach_stopAllThreads w rounds polls timeOutMilliseconds w' :
      reachable w →
      stopAllThreads rounds polls timeOutMilliseconds w = Some w' →
      reachable w'.

(** The code [c] neither reads nor writes the table of native threads. *)
Definition ignores_natives {A} (c : M A) : Prop :=
  ∀ f w, c (set_natives f w) = ((c w).1, set_natives f (c w).2).

(** The native threads that are, or may still come to be, in the registry. *)
Definition pending (n : Native) : bool :=
  alive n && (bool_decide (pc n = pcEntry) || registered (pc n)).

Definition pendingSet (w : World) : gset Z :=
  dom (filter (λ kv, pending kv.2 = true) (natives w)).

(** Native threads only move forward: none appears, none changes owner, and
    none comes back to where it can be in the registry. *)
Definition evolves (w w' : World) : Prop :=
  ∀ h n', natives w' !! h = Some n' →
    ∃ n, natives w !! h = Some n ∧ owner n' = owner n ∧
         (pending n' = true → pending n = true).

(** The world the [k]-th poll of [waitForThreadToExit] looks at. *)
Fixpoint poll_world `{Platform} (k : nat) (w : World) : World :=
  match k with
  | O => w
  | S k' => poll_world k' (sleep sleepMsPerIteration w)
  end.

(** How many forced terminations the log holds. *)
Definition isKill (e : Event) : bool :=
  match e with EvKillThread _ => true | _ => false end.

Definition kill_count (w : World) : nat :=
  length (filter (λ e, isKill e = true) (trace w)).

(** How many times the log says that a caller slept. *)
Definition isSleep (e : Event) : bool :=
  match e with EvSleep _ => true | _ => false end.

Definition sleep_count (w : World) : nat :=
  length (filter (λ e, isSleep e = true) (trace w)).

(** The native threads that stand between the registration and the
    deregistration of the trampoline and have not been terminated. *)
Definition registeredSet (w : World) : gset Z :=
  dom (filter (λ kv, alive kv.2 = true ∧ registered (pc kv.2) = true) (natives w)).

(** What a trampoline may do to a [Thread] object: write [threadId_], and set
    [threadHandle_] to null. *)
Definition only_id_and_handle_reset (T T' : Thread) : Prop :=
  threadName_ T' = threadName_ T ∧
  threadPriority_ T' = threadPriority_ T ∧
  affinityMask_ T' = affinityMask_ T ∧
  threadShouldExit_ T' = threadShouldExit_ T ∧
  startSuspensionEvent_ T' = startSuspensionEvent_ T ∧
  defaultEvent_ T' = defaultEvent_ T ∧
  (threadHandle_ T' = threadHandle_ T ∨ threadHandle_ T' = 0%Z).

(** What a stop, and the trampolines that move during it, may do to a
    [Thread] object besides that: raise the exit flag and signal the event of
    [notify()]; neither is taken back. *)
Definition only_stop_writes (T T' : Thread) : Prop :=
  threadName_ T' = threadName_ T ∧
  threadPriority_ T' = threadPriority_ T ∧
  affinityMask_ T' = affinityMask_ T ∧
  startSuspensionEvent_ T' = startSuspensionEvent_ T ∧
  (threadShouldExit_ T = true → threadShouldExit_ T' = true) ∧
  (signalled (defaultEvent_ T) = true → signalled (defaultEvent_ T') = true).

(** How many statements of the trampoline are left at most. *)
Definition rank (p : PC) : nat :=
  match p with
  | pcEntry => 10 | pcCaptureId => 9 | pcSetName => 8 | pcGate => 7
  | pcAffinity => 6 | pcRun => 5 | pcDeregister => 4 | pcCloseHandle => 3
  | pcResetHandle => 2 | pcResetId => 1 | pcDone => 0 | pcCrashed => 0
  end.

(** Reading a log for the use of [runningThreadsLock]: [held] says whether
    the lock is held; while it is, only operations on the array may follow,
    and the lock is not entered again.  The answer is whether the lock is
    held at the end, or [None] when the log breaks these rules. *)
Fixpoint lock_scan (held : bool) (l : list Event) : option bool :=
  match l with
  | [] => Some held
  | e :: l' =>
    match e, held with
    | EvLock, false => lock_scan true l'
    | EvLock, true => None
    | EvUnlock, true => lock_scan false l'
    | EvUnlock, false => None
    | (EvRegistryAdd _ | EvRegistryRemove _ | EvRegistryRead _), true =>
        lock_scan true l'
    | (EvRegistryAdd _ | EvRegistryRemove _ | EvRegistryRead _), false => None
    | _, true => None
    | _, false => lock_scan false l'
    end
  end.

Definition locks_ok (w : World) : Prop := lock_scan false (trace w) = Some false.

(** From [w] to [w'] the log has grown by a piece that keeps these rules and
    leaves the lock free. *)
Definition lock_respecting (w w' : World) : Prop :=
  ∃ es, trace w' = trace w ++ es ∧ lock_scan false es = Some false.

(** ** A small process, for the worked examples *)

(** Handles are counted up from one. *)
Definition next_handle (m : gmap Z Native) : Z :=
  (1 + foldr Z.max 0 (elements (dom m)))%Z.

(** A platform after the POSIX one: no handle to close, a thread's priority
    can be set through its handle, and the platform refuses to retune the
    calling thread, which is what a null handle stands for
    (see [setCurrentThreadPriority]). *)
Definition demo_platform : Platform :=
  {| JUCE_WIN32 := false;
     createThread_answer := λ w _, next_handle (natives w);
     setThreadPriority_answer := λ _ h _, negb (h =? 0)%Z;
     threadId_of := λ h, (100 + h)%Z |}.

(** One [Thread] named "worker" at address 1, never started. *)
Definition demo_idle : World :=
  set_heap (insert 1 (Thread_ctor "worker")) (mkWorld ∅ [] ∅ [] []).

(** [startThread()] has been called on it: native thread 1 exists. *)
Definition demo_started : World :=
  exec (startThread (H := demo_platform) 1) demo_idle.

(** The native thread has gone through five statements: it is in [run()]. *)
Definition demo_in_run : World :=
  foldl (λ w s, tramp_step (H := demo_platform) s w) demo_started
        (replicate 5 (1%Z, Returns)).

(** What the native thread does when it leaves [run()] during one sleep of
    the caller: it returns from [run()], deregisters, skips the handle
    release, and sets the handle to null; the reset of the thread id is still
    to come. *)
Definition demo_exit : list EnvStep := replicate 4 (1%Z, Returns).

(** A platform that has run out of threads: [juce_createThread] answers
    null; otherwise as [demo_platform]. *)
Definition demo_exhausted : Platform :=
  {| JUCE_WIN32 := false;
     createThread_answer := λ _ _, 0%Z;
     setThreadPriority_answer := λ _ h _, negb (h =? 0)%Z;
     threadId_of := λ h, (100 + h)%Z |}.

(** A second [Thread] at address 2, started as well and in [run()] too. *)
Definition demo_two_in_run : World :=
  foldl (λ w s, tramp_step (H := demo_platform) s w)
        (exec (startThread (H := demo_platform) 2)
              (set_heap (insert 2 (Thread_ctor "spinner")) demo_in_run))
        (replicate 5 (2%Z, Returns)).

(** ** Properties *)

(** *** Reading and writing through pointers *)

Lemma deref_update_eq this f w : deref this (update this f w) = f (deref this w).
Proof. unfold deref, update; simpl. by rewrite lookup_insert_eq. Qed.

Lemma deref_update_ne this that f w :
  this ≠ that → deref that (update this f w) = deref that w.
Proof. intros ?. unfold deref, update; simpl. by rewrite lookup_insert_ne. Qed.

Lemma deref_update this that f w :
  deref that (update this f w)
  = if decide (this = that) then f (deref that w) else deref that w.
Proof.
  case_decide as E; [subst; apply deref_update_eq | by apply deref_update_ne].
Qed.

Lemma handle_update this that f w :
  (∀ T, threadHandle_ (f T) = threadHandle_ T) →
  threadHandle_ (deref that (update this f w)) = threadHandle_ (deref that w).
Proof. intros Hf. rewrite deref_update. by case_decide. Qed.

Lemma deref_log this e w : deref this (log e w) = deref this w.
Proof. reflexivity. Qed.

Lemma deref_set_natives this f w : deref this (set_natives f w) = deref this w.
Proof. reflexivity. Qed.

Lemma deref_set_runningThreads this f w :
  deref this (set_runningThreads f w) = deref this w.
Proof. reflexivity. Qed.

Lemma deref_set_tape this tp w : deref this (set_tape tp w) = deref this w.
Proof. reflexivity. Qed.

Lemma natives_update this f w : natives (update this f w) = natives w.
Proof. reflexivity. Qed.

Lemma natives_log e w : natives (log e w) = natives w.
Proof. reflexivity. Qed.

Lemma natives_set_natives f w : natives (set_natives f w) = f (natives w).
Proof. reflexivity. Qed.

Lemma registry_update this f w : runningThreads (update this f w) = runningThreads w.
Proof. reflexivity. Qed.

Lemma registry_log e w : runningThreads (log e w) = runningThreads w.
Proof. reflexivity. Qed.

Lemma registry_set_natives f w :
  runningThreads (set_natives f w) = runningThreads w.
Proof. reflexivity. Qed.

Lemma registry_set_runningThreads f w :
  runningThreads (set_runningThreads f w) = f (runningThreads w).
Proof. reflexivity. Qed.

Lemma trace_update this f w : trace (update this f w) = trace w.
Proof. reflexivity. Qed.

Lemma trace_log e w : trace (log e w) = trace w ++ [e].
Proof. reflexivity. Qed.

Lemma trace_set_natives f w : trace (set_natives f w) = trace w.
Proof. reflexivity. Qed.

Lemma trace_set_runningThreads f w : trace (set_runningThreads f w) = trace w.
Proof. reflexivity. Qed.

Create Rewrite HintDb world.
#[global] Hint Rewrite deref_update_eq deref_log deref_set_natives
  deref_set_runningThreads deref_set_tape natives_update natives_log
  natives_set_natives registry_update registry_log registry_set_natives
  registry_set_runningThreads trace_update trace_log trace_set_natives
  trace_set_runningThreads : world.

Ltac wsimpl := repeat (autorewrite with world; simpl).

(** *** The sequential reading of the methods *)

Section Sequential.
Context `{Platform}.
Local Open Scope juce_scope.

(** The exact effect of [startThread()] on an idle thread. *)
Lemma startThread_idle_exec this w :
  running this w = false →
  let w1 := update this (set_threadShouldExit_ false) w in
  let h := createThread_answer w1 this in
  let w2 := log (EvCreateThread this h)
              (if decide (h = 0%Z) then w1
               else set_natives (insert h (mkNative this pcEntry true)) w1) in
  let w3 := update this (set_threadHandle_ h) w2 in
  let p := threadPriority_ (deref this w) in
  let worked := setThreadPriority_answer w3 h p in
  exec (startThread this) w
  = update this signal_startSuspensionEvent_
      (log (EvSetThreadPriority h p worked) w3).
Proof.
  intros Hr w1 h w2 w3 p worked. unfold running in Hr.
  apply negb_false_iff in Hr.
  unfold startThread, exec, bind, modify, gets, when,
    juce_createThread, juce_setThreadPriority. simpl.
  rewrite deref_update_eq. simpl. rewrite Hr. simpl.
  fold w1 h. fold w2. fold w3.
  assert (Hp : threadPriority_ (deref this w3) = p).
  { unfold w3, w2. destruct (decide (h = 0%Z)); unfold w1; wsimpl; done. }
  rewrite Hp. reflexivity.
Qed.

(** *** C3, C10: [startThread()] on a running thread *)

Lemma startThread_running_exec this w :
  running this w = true →
  exec (startThread this) w = update this (set_threadShouldExit_ false) w.
Proof.
  intros Hr. unfold startThread, exec, bind, modify, gets, when. simpl.
  unfold running in Hr. rewrite deref_update_eq. simpl.
  destruct (threadHandle_ (deref this w) =? 0)%Z; [discriminate|]. reflexivity.
Qed.

(** C3. On a [Thread] whose native handle is not null, [startThread()] leaves
    the handle and the thread id as they were, creates no native thread, calls
    nothing in the platform layer and touches neither the registry nor any
    other object; calling it twice is the same as calling it once. *)
Theorem startThread_running_is_noop this w :
  running this w = true →
  let w' := exec (startThread this) w in
  threadHandle_ (deref this w') = threadHandle_ (deref this w) ∧
  threadId_ (deref this w') = threadId_ (deref this w) ∧
  natives w' = natives w ∧
  trace w' = trace w ∧
  runningThreads w' = runningThreads w ∧
  (∀ that, that ≠ this → deref that w' = deref that w) ∧
  running this w' = true ∧
  exec (startThread this) w' = w'.
Proof.
  intros Hr w'. subst w'. rewrite startThread_running_exec by done.
  assert (Hr' : running this (update this (set_threadShouldExit_ false) w) = true).
  { unfold running in *. by rewrite deref_update_eq. }
  rewrite startThread_running_exec by done.
  rewrite !deref_update_eq. repeat split; try done.
  - intros that Hne. by apply deref_update_ne.
  - unfold update, set_heap; simpl. f_equal.
    rewrite insert_insert_eq. f_equal.
    unfold deref; simpl. rewrite lookup_insert_eq. reflexivity.
Qed.

Lemma startThread_flag this w :
  threadShouldExit_ (deref this (exec (startThread this) w)) = false.
Proof.
  unfold startThread, exec, bind, modify, gets, when,
    juce_createThread, juce_setThreadPriority. simpl.
  rewrite deref_update_eq. simpl.
  destruct (threadHandle_ (deref this w) =? 0)%Z; simpl.
  - rewrite !deref_update_eq. simpl. unfold log; simpl.
    match goal with |- context [decide ?P] => destruct (decide P) end;
      simpl; unfold deref; simpl; rewrite ?lookup_insert_eq; reflexivity.
  - by rewrite deref_update_eq.
Qed.

(** C10. [startThread()] clears [threadShouldExit_] before it looks at the
    handle, in every world; on a running thread a [signalThreadShouldExit()]
    that came just before is thereby undone, while the thread keeps running on
    the same handle and nothing else changes. *)
Theorem startThread_clears_exit_request this w :
  running this w = true →
  let w1 := exec (signalThreadShouldExit this) w in
  let w2 := exec (startThread this) w1 in
  threadShouldExit_ (deref this w1) = true ∧
  threadShouldExit_ (deref this w2) = false ∧
  running this w2 = true ∧
  threadHandle_ (deref this w2) = threadHandle_ (deref this w) ∧
  natives w2 = natives w ∧
  trace w2 = trace w ∧
  (∀ w0, threadShouldExit_ (deref this (exec (startThread this) w0)) = false).
Proof.
  intros Hr w1 w2.
  assert (Hw1 : w1 = update this (set_threadShouldExit_ true) w) by reflexivity.
  assert (Hr1 : running this w1 = true).
  { rewrite Hw1. unfold running in *. by rewrite deref_update_eq. }
  assert (Hw2 : w2 = update this (set_threadShouldExit_ false) w1).
  { unfold w2. by apply startThread_running_exec. }
  split; [by rewrite Hw1, deref_update_eq|].
  split; [by rewrite Hw2, deref_update_eq|].
  split; [rewrite Hw2; unfold running in *; by rewrite deref_update_eq|].
  split; [by rewrite Hw2, Hw1, !deref_update_eq|].
  split; [by rewrite Hw2, Hw1|].
  split; [by rewrite Hw2, Hw1|].
  apply startThread_flag.
Qed.

(** *** C8: [setPriority] *)

(** The exact effect of [setPriority]. *)
Lemma setPriority_exec this priority w :
  let worked :=
    setThreadPriority_answer w (threadHandle_ (deref this w)) priority in
  let w1 := log (EvSetThreadPriority (threadHandle_ (deref this w)) priority worked) w in
  setPriority this priority w
  = (Normal worked,
     if worked then update this (set_threadPriority_ priority) w1 else w1).
Proof.
  intros worked w1. subst w1.
  unfold setPriority, bind, gets, when, modify, ret, juce_setThreadPriority.
  simpl. fold worked. by destruct worked.
Qed.

(** C8. [setPriority (p)] returns what [juce_setThreadPriority] answered for
    the thread's handle and [p]; [threadPriority_] becomes [p] when the answer
    is [true] and keeps its value when it is [false]. *)
Theorem setPriority_result_and_cache this priority w :
  let worked :=
    setThreadPriority_answer w (threadHandle_ (deref this w)) priority in
  result (setPriority this priority) w = Normal worked ∧
  threadPriority_ (deref this (exec (setPriority this priority) w))
    = (if worked then priority else threadPriority_ (deref this w)) ∧
  trace (exec (setPriority this priority) w)
    = trace w ++ [EvSetThreadPriority (threadHandle_ (deref this w)) priority worked].
Proof.
  intros worked. unfold result, exec. rewrite setPriority_exec. fold worked.
  destruct worked; simpl; rewrite ?deref_update_eq; done.
Qed.

(** *** C4: [startThread (priority)] *)

Lemma startThread_priority_running this priority w :
  running this w = true →
  exec (startThread_priority this priority) w = exec (setPriority this priority) w.
Proof.
  intros Hr. unfold running in Hr.
  unfold startThread_priority, setPriority, exec, bind, gets, when, modify, ret,
    juce_setThreadPriority. simpl.
  destruct (threadHandle_ (deref this w) =? 0)%Z; [discriminate|]. simpl.
  by destruct (setThreadPriority_answer _ _ _).
Qed.

Lemma startThread_priority_idle this priority w :
  running this w = false →
  exec (startThread_priority this priority) w
  = exec (startThread this) (update this (set_threadPriority_ priority) w).
Proof.
  intros Hr. unfold running in Hr.
  unfold startThread_priority, exec, bind, gets, modify at 1. simpl.
  destruct (threadHandle_ (deref this w) =? 0)%Z; [|discriminate]. simpl.
  by destruct (startThread this _).
Qed.

(** C4, as the code has it. On a running thread [startThread (p)] is
    [setPriority (p)]: handle, thread id and native threads stay as they are.
    On an idle thread it stores [p] in [threadPriority_] without asking the
    platform and then does what [startThread()] does, so that the new native
    thread is given priority [p]. *)
Theorem startThread_priority_cases this priority w :
  (running this w = true →
     exec (startThread_priority this priority) w
       = exec (setPriority this priority) w ∧
     threadHandle_ (deref this (exec (startThread_priority this priority) w))
       = threadHandle_ (deref this w) ∧
     threadId_ (deref this (exec (startThread_priority this priority) w))
       = threadId_ (deref this w) ∧
     natives (exec (startThread_priority this priority) w) = natives w) ∧
  (running this w = false →
     let w0 := update this (set_threadPriority_ priority) w in
     let h := createThread_answer (update this (set_threadShouldExit_ false) w0) this in
     exec (startThread_priority this priority) w = exec (startThread this) w0 ∧
     threadPriority_ (deref this (exec (startThread_priority this priority) w))
       = priority ∧
     threadHandle_ (deref this (exec (startThread_priority this priority) w)) = h ∧
     ∃ worked, trace (exec (startThread_priority this priority) w)
       = trace w ++ [EvCreateThread this h; EvSetThreadPriority h priority worked]).
Proof.
  split.
  - intros Hr. rewrite startThread_priority_running by done.
    split; [done|]. unfold exec. rewrite setPriority_exec.
    destruct (setThreadPriority_answer _ _ _); simpl;
      rewrite ?deref_update_eq; done.
  - intros Hr w0 h. rewrite startThread_priority_idle by done. fold w0.
    split; [done|].
    assert (Hr0 : running this w0 = false).
    { unfold w0, running in *. by wsimpl. }
    rewrite (startThread_idle_exec this w0 Hr0). fold h.
    destruct (decide (h = 0%Z)); unfold w0; wsimpl;
      (split; [done|]); (split; [done|]); eexists; by rewrite <- !app_assoc.
Qed.

(** *** C5, C6: the trampoline *)

Lemma removeValue_not_in t (a : list nat) :
  t ∉ a → VoidArray_removeValue t a = a.
Proof.
  induction a as [|x a IH]; [done|]. intros Hn. simpl.
  apply not_elem_of_cons in Hn as [? ?]. case_decide; [congruence|].
  by rewrite IH.
Qed.

Lemma removeValue_add t (a : list nat) :
  t ∉ a → VoidArray_removeValue t (VoidArray_add t a) = a.
Proof.
  unfold VoidArray_add. induction a as [|x a IH]; simpl.
  - intros _. by case_decide.
  - intros Hn. apply not_elem_of_cons in Hn as [? ?].
    case_decide; [congruence|]. by rewrite IH.
Qed.

Lemma threadEntryPoint_exec me o thread w :
  let T := deref thread w in
  result (threadEntryPoint me o thread) w = Normal tt ∧
  trace (exec (threadEntryPoint me o thread) w)
    = trace w ++ [EvLock; EvRegistryAdd thread; EvUnlock]
        ++ guarded_block_log me thread T
        ++ [EvLock; EvRegistryRemove thread; EvUnlock]
        ++ (if JUCE_WIN32 then [EvCloseThreadHandle (threadHandle_ T)] else []) ∧
  runningThreads (exec (threadEntryPoint me o thread) w)
    = VoidArray_removeValue thread (VoidArray_add thread (runningThreads w)) ∧
  deref thread (exec (threadEntryPoint me o thread) w)
    = set_threadId_ 0 (set_threadHandle_ 0 T) ∧
  natives (exec (threadEntryPoint me o thread) w) = natives w.
Proof.
  intros T. subst T. unfold guarded_block_log.
  unfold threadEntryPoint, tep_guarded_block, tep_register, tep_captureId, tep_setName, tep_gate,
    tep_affinity, tep_deregister, tep_closeHandle, tep_resetHandle, tep_resetId,
    JUCE_TRY_CATCH_ALL_ASSERT, ScopedLock_runningThreadsLock, run,
    getCurrentThreadId, juce_setCurrentThreadName, setCurrentThreadAffinityMask,
    juce_CloseThreadHandle, result, exec, bind, gets, modify, when, ret, throw.
  repeat (wsimpl;
          match goal with
          | |- context [if ?b then _ else _] => destruct b eqn:?
          | |- context [match ?o with Returns => _ | Throws => _ end] => destruct o
          end).
  all: wsimpl; rewrite <- ?app_assoc; simpl; try done.
Qed.


(** When [run()] throws, the exception does reach the end of the guarded
    block: it is the handler that stops it. *)
Lemma guarded_block_raises me thread w :
  signalled (startSuspensionEvent_ (deref thread w)) = true →
  result (tep_guarded_block me Throws thread) w = Raised.
Proof.
  intros Hg.
  unfold tep_guarded_block, tep_captureId, tep_setName, tep_gate, tep_affinity,
    run, getCurrentThreadId, juce_setCurrentThreadName,
    setCurrentThreadAffinityMask, result, bind, gets, modify, when, ret, throw.
  repeat (wsimpl; rewrite ?Hg;
          match goal with
          | |- context [if ?b then _ else _] => destruct b eqn:?
          end).
  all: done.
Qed.

(** C6. However [run()] ends, by returning or by throwing, nothing leaves
    [threadEntryPoint]: the guarded block ends normally, and the statements
    after it are executed: the thread is taken out of the registry, its handle
    is set to null and its thread id to zero. *)
Theorem threadEntryPoint_always_cleans_up me o thread w :
  thread ∉ runningThreads w →
  let w_end := exec (threadEntryPoint me o thread) w in
  result (threadEntryPoint me o thread) w = Normal tt ∧
  result (JUCE_TRY_CATCH_ALL_ASSERT (tep_guarded_block me o thread))
         (exec (tep_register thread) w) = Normal tt ∧
  (thread ∉ runningThreads w_end) ∧
  runningThreads w_end = runningThreads w ∧
  threadHandle_ (deref thread w_end) = 0%Z ∧
  threadId_ (deref thread w_end) = 0%Z ∧
  sublist [EvLock; EvRegistryRemove thread; EvUnlock]
          (drop (length (trace w)) (trace w_end)).
Proof.
  intros Hn w_end.
  destruct (threadEntryPoint_exec me o thread w) as (Hres & Htr & Hreg & Hd & _).
  fold w_end in Htr, Hreg, Hd.
  rewrite removeValue_add in Hreg by done.
  split; [done|]. split.
  { unfold JUCE_TRY_CATCH_ALL_ASSERT, result.
    by destruct (tep_guarded_block me o thread _) as [[|] ?]. }
  split; [by rewrite Hreg|]. split; [done|].
  split; [by rewrite Hd|]. split; [by rewrite Hd|].
  rewrite Htr, drop_app_length.
  apply sublist_inserts_l, sublist_inserts_l, sublist_inserts_r. done.
Qed.


End Sequential.

(** *** The registry array *)

Lemma removeValue_sublist t (a : list nat) : sublist (VoidArray_removeValue t a) a.
Proof.
  induction a as [|x a IH]; simpl; [done|].
  case_decide; [by apply sublist_cons | by apply sublist_skip].
Qed.

Lemma removeValue_NoDup t (a : list nat) : NoDup a → NoDup (VoidArray_removeValue t a).
Proof. intros ?. eapply sublist_NoDup; [done | apply removeValue_sublist]. Qed.

Lemma elem_of_removeValue_ne t x (a : list nat) :
  x ≠ t → x ∈ VoidArray_removeValue t a ↔ x ∈ a.
Proof.
  intros Hne. induction a as [|y a IH]; simpl; [done|].
  case_decide; subst; rewrite ?elem_of_cons, ?IH; intuition congruence.
Qed.

Lemma removeValue_gone t (a : list nat) : NoDup a → t ∉ VoidArray_removeValue t a.
Proof.
  induction a as [|y a IH]; simpl; [intros _; apply not_elem_of_nil|].
  intros Hnd. apply NoDup_cons in Hnd as [Hy Hnd].
  case_decide; subst; [done|].
  rewrite not_elem_of_cons. split; [congruence | by apply IH].
Qed.

Lemma elem_of_removeValue t x (a : list nat) :
  x ∈ VoidArray_removeValue t a → x ∈ a.
Proof. intros ?. eapply elem_of_sublist; [done | apply removeValue_sublist]. Qed.

(** *** The invariant is kept by every step *)

Ltac lookup_cases h1 h :=
  let E := fresh "E" in
  destruct (decide (h1 = h)) as [E|E];
  [rewrite ?E in *; rewrite ?lookup_insert_eq in *
  | rewrite ?lookup_insert_ne in * by done].

Ltac wother :=
  repeat first
    [ rewrite deref_update_ne by done | rewrite deref_log
    | rewrite deref_set_natives | rewrite deref_set_runningThreads
    | rewrite deref_set_tape ].

Ltac handles_same :=
  let t := fresh "t" in
  intros t; wsimpl; rewrite ?handle_update by (by intros []); wsimpl; done.

Ltac run_statement :=
  unfold plain, guarded, goto, tep_register, tep_captureId, tep_setName,
    tep_gate, tep_affinity, tep_deregister, tep_closeHandle, tep_resetHandle,
    tep_resetId, run, ScopedLock_runningThreadsLock, getCurrentThreadId,
    juce_setCurrentThreadName, setCurrentThreadAffinityMask,
    juce_CloseThreadHandle, bind, gets, modify, when, ret, throw;
  simpl;
  repeat match goal with
         | |- context [if ?b then _ else _] => destruct b eqn:?; simpl
         | |- context [match ?o with Returns => _ | Throws => _ end] =>
             destruct o; simpl
         end.

Section Lifecycle.
Context `{Platform}.
Local Open Scope juce_scope.

(** The invariant only looks at the registry, the native threads and the
    handles stored in the objects. *)
Lemma Inv_ext w w' :
  runningThreads w' = runningThreads w →
  natives w' = natives w →
  (∀ t, threadHandle_ (deref t w') = threadHandle_ (deref t w)) →
  Inv w → Inv w'.
Proof.
  intros Hreg Hnat Hh [I1 I2 I3 I4 I5].
  split.
  - by rewrite Hreg.
  - by rewrite Hnat.
  - intros t. rewrite Hh, Hreg. apply I3.
  - intros t. rewrite Hh, Hnat, Hreg. apply I4.
  - intros h n. rewrite Hnat, Hh. apply I5.
Qed.

(** A live native thread that has not reset the handle is the one its
    [Thread] object points to. *)
Lemma Inv_current w h n :
  Inv w → natives w !! h = Some n → alive n = true →
  holds_handle (pc n) = true →
  threadHandle_ (deref (owner n) w) = h.
Proof.
  intros I Hn Ha Hp.
  destruct (decide (threadHandle_ (deref (owner n) w) = h)) as [|Hne]; [done|].
  destruct (inv_stale w I h n Hn Hne); congruence.
Qed.

Lemma Inv_current_member w h n :
  Inv w → natives w !! h = Some n → alive n = true →
  holds_handle (pc n) = true →
  owner n ∈ runningThreads w ↔ registered (pc n) = true.
Proof.
  intros I Hn Ha Hp.
  pose proof (Inv_current w h n I Hn Ha Hp) as Hc.
  destruct (inv_natives w I h n Hn) as (Hh0 & _).
  destruct (inv_running w I (owner n)) as (n' & Hn' & _ & _ & _ & Hiff).
  { by rewrite Hc. }
  rewrite Hc, Hn in Hn'. by simplify_eq.
Qed.

(** A statement of the trampoline that leaves registry and handles alone. *)
Lemma Inv_native_step w w' h n p' :
  Inv w → natives w !! h = Some n → alive n = true →
  registered p' = registered (pc n) →
  holds_handle p' = holds_handle (pc n) →
  p' ≠ pcCrashed →
  runningThreads w' = runningThreads w →
  natives w' = <[h := mkNative (owner n) p' true]> (natives w) →
  (∀ t, threadHandle_ (deref t w') = threadHandle_ (deref t w)) →
  Inv w'.
Proof.
  intros I Hn Ha Hr Hp Hc Hreg Hnat Hh.
  destruct (inv_natives w I h n Hn) as (Hh0 & Ho & _).
  split; rewrite ?Hreg.
  - apply I.
  - intros h1 n1. rewrite Hnat. lookup_cases h1 h.
    + intros [= <-]. simpl. repeat split; done.
    + apply I.
  - intros t. rewrite Hh. apply I.
  - intros t. rewrite Hh, Hnat. intros Ht.
    destruct (inv_running w I t Ht) as (n0 & Hn0 & Ho0 & Ha0 & Hp0 & Hiff).
    lookup_cases (threadHandle_ (deref t w)) h.
    + assert (n0 = n) as -> by congruence.
      eexists; split; [done|]. simpl. rewrite Hr, Hp. done.
    + exists n0. done.
  - intros h1 n1. rewrite Hnat, Hh. lookup_cases h1 h.
    + intros [= <-]. simpl. intros Hne.
      destruct (inv_stale w I h n Hn Hne) as [?|?]; [congruence|].
      right. congruence.
    + apply I.
Qed.

(** lines 58-61 *)
Lemma Inv_register w w' h n :
  Inv w → natives w !! h = Some n → alive n = true → pc n = pcEntry →
  runningThreads w' = runningThreads w ++ [owner n] →
  natives w' = <[h := mkNative (owner n) pcCaptureId true]> (natives w) →
  (∀ t, threadHandle_ (deref t w') = threadHandle_ (deref t w)) →
  Inv w'.
Proof.
  intros I Hn Ha Hpc Hreg Hnat Hh.
  destruct (inv_natives w I h n Hn) as (Hh0 & Ho & _).
  assert (Hcur : threadHandle_ (deref (owner n) w) = h).
  { apply (Inv_current w h n); try done. by rewrite Hpc. }
  assert (Hnot : owner n ∉ runningThreads w).
  { rewrite (Inv_current_member w h n) by (try done; by rewrite Hpc).
    by rewrite Hpc. }
  split; rewrite ?Hreg.
  - apply NoDup_app. split; [apply I|]. split; [|apply NoDup_singleton].
    intros x Hx ->%list_elem_of_singleton. done.
  - intros h1 n1. rewrite Hnat. lookup_cases h1 h.
    + intros [= <-]. simpl. repeat split; done.
    + apply I.
  - intros t. rewrite Hh. intros Ht. rewrite elem_of_app, list_elem_of_singleton.
    intros [Hin| ->]; [by apply (inv_idle w I t)|congruence].
  - intros t. rewrite Hh, Hnat. intros Ht.
    destruct (inv_running w I t Ht) as (n0 & Hn0 & Ho0 & Ha0 & Hp0 & Hiff).
    lookup_cases (threadHandle_ (deref t w)) h.
    + assert (n0 = n) as -> by congruence.
      eexists; split; [done|]. simpl.
      repeat split; try done. intros _. apply elem_of_app. right.
      by apply list_elem_of_singleton.
    + exists n0. repeat split; try done.
      * rewrite elem_of_app, list_elem_of_singleton. intros [?| ->]; [tauto|congruence].
      * intros ?. apply elem_of_app. left. tauto.
  - intros h1 n1. rewrite Hnat, Hh. lookup_cases h1 h.
    + intros [= <-]. simpl. congruence.
    + apply I.
Qed.

(** lines 80-85 *)
Lemma Inv_deregister w w' h n :
  Inv w → natives w !! h = Some n → alive n = true → pc n = pcDeregister →
  runningThreads w' = VoidArray_removeValue (owner n) (runningThreads w) →
  natives w' = <[h := mkNative (owner n) pcCloseHandle true]> (natives w) →
  (∀ t, threadHandle_ (deref t w') = threadHandle_ (deref t w)) →
  Inv w'.
Proof.
  intros I Hn Ha Hpc Hreg Hnat Hh.
  destruct (inv_natives w I h n Hn) as (Hh0 & Ho & _).
  assert (Hcur : threadHandle_ (deref (owner n) w) = h).
  { apply (Inv_current w h n); try done. by rewrite Hpc. }
  split; rewrite ?Hreg.
  - apply removeValue_NoDup, I.
  - intros h1 n1. rewrite Hnat. lookup_cases h1 h.
    + intros [= <-]. simpl. repeat split; done.
    + apply I.
  - intros t. rewrite Hh. intros Ht Hin%elem_of_removeValue.
    by apply (inv_idle w I t).
  - intros t. rewrite Hh, Hnat. intros Ht.
    destruct (inv_running w I t Ht) as (n0 & Hn0 & Ho0 & Ha0 & Hp0 & Hiff).
    lookup_cases (threadHandle_ (deref t w)) h.
    + assert (n0 = n) as -> by congruence. subst t.
      eexists; split; [done|]. simpl.
      repeat split; try done. intros Hin.
      exfalso. revert Hin. apply removeValue_gone, I.
    + exists n0. repeat split; try done;
        rewrite elem_of_removeValue_ne by congruence; tauto.
  - intros h1 n1. rewrite Hnat, Hh. lookup_cases h1 h.
    + intros [= <-]. simpl. congruence.
    + apply I.
Qed.

(** line 91 *)
Lemma Inv_resetHandle w w' h n :
  Inv w → natives w !! h = Some n → alive n = true → pc n = pcResetHandle →
  runningThreads w' = runningThreads w →
  natives w' = <[h := mkNative (owner n) pcResetId true]> (natives w) →
  threadHandle_ (deref (owner n) w') = 0%Z →
  (∀ t, t ≠ owner n → threadHandle_ (deref t w') = threadHandle_ (deref t w)) →
  Inv w'.
Proof.
  intros I Hn Ha Hpc Hreg Hnat Hh0' Hh.
  destruct (inv_natives w I h n Hn) as (Hh0 & Ho & _).
  assert (Hcur : threadHandle_ (deref (owner n) w) = h).
  { apply (Inv_current w h n); try done. by rewrite Hpc. }
  assert (Hnot : owner n ∉ runningThreads w).
  { rewrite (Inv_current_member w h n) by (try done; by rewrite Hpc).
    by rewrite Hpc. }
  split; rewrite ?Hreg.
  - apply I.
  - intros h1 n1. rewrite Hnat. lookup_cases h1 h.
    + intros [= <-]. simpl. repeat split; done.
    + apply I.
  - intros t Ht. destruct (decide (t = owner n)) as [->|Hne]; [done|].
    rewrite Hh in Ht by done. by apply (inv_idle w I t).
  - intros t Ht. destruct (decide (t = owner n)) as [->|Hne]; [congruence|].
    rewrite Hh in Ht |- * by done. rewrite Hnat.
    destruct (inv_running w I t Ht) as (n0 & Hn0 & Ho0 & Ha0 & Hp0 & Hiff).
    lookup_cases (threadHandle_ (deref t w)) h.
    { assert (n0 = n) as -> by congruence. congruence. }
    exists n0. done.
  - intros h1 n1. rewrite Hnat. lookup_cases h1 h.
    + intros [= <-]. simpl. by right.
    + intros Hn1 Hne. apply (inv_stale w I h1 n1 Hn1).
      destruct (decide (owner n1 = owner n)) as [Eo|Eo].
      * rewrite Eo. congruence.
      * by rewrite <- Hh.
Qed.


(** Every statement of the trampoline keeps the invariant. *)
Lemma Inv_tramp_step s w : Inv w → Inv (tramp_step s w).
Proof.
  intros I. destruct s as [me o]. unfold tramp_step.
  destruct (natives w !! me) as [n|] eqn:Hn; [|done].
  destruct (alive n) eqn:Ha; [|done].
  destruct (pc n) eqn:Hpc; try done.
  - run_statement. eapply Inv_register; [done..| | |]; wsimpl; try done.
  - run_statement.
    eapply (Inv_native_step w _ me n pcSetName); try done;
      rewrite ?Hpc; try done; try handles_same.
  - run_statement;
      (eapply (Inv_native_step w _ me n pcGate); try done;
       rewrite ?Hpc; try done; try handles_same).
  - run_statement;
      [eapply (Inv_native_step w _ me n pcAffinity)
      |eapply (Inv_native_step w _ me n pcDeregister)];
      try done; rewrite ?Hpc; try done; try handles_same.
  - run_statement;
      (eapply (Inv_native_step w _ me n pcRun); try done;
       rewrite ?Hpc; try done; try handles_same).
  - run_statement;
      (eapply (Inv_native_step w _ me n pcDeregister); try done;
       rewrite ?Hpc; try done; try handles_same).
  - run_statement. eapply Inv_deregister; [done..| | |]; wsimpl; try done.
  - run_statement;
      (eapply (Inv_native_step w _ me n pcResetHandle); try done;
       rewrite ?Hpc; try done; try handles_same).
  - run_statement. eapply Inv_resetHandle; [done..| | | |]; wsimpl; try done.
    intros t Hne. by rewrite deref_set_natives, deref_update_ne.
  - run_statement.
    eapply (Inv_native_step w _ me n pcDone); try done;
      rewrite ?Hpc; try done; try handles_same.
Qed.

Lemma foldl_Inv (steps : list EnvStep) w :
  Inv w → Inv (foldl (λ w' s, tramp_step s w') w steps).
Proof.
  revert w. induction steps as [|s steps IH]; simpl; [done|].
  intros w I. by apply IH, Inv_tramp_step.
Qed.

Lemma Inv_set_tape tp w : Inv w → Inv (set_tape tp w).
Proof. by apply Inv_ext. Qed.

Lemma Inv_log e w : Inv w → Inv (log e w).
Proof. by apply Inv_ext. Qed.

Lemma Inv_yield w : Inv w → Inv (yield w).
Proof.
  intros I. unfold yield. destruct (tape w) as [|steps rest]; [done|].
  by apply foldl_Inv, Inv_set_tape.
Qed.

Lemma Inv_sleep ms w : Inv w → Inv (sleep ms w).
Proof. intros I. by apply Inv_yield, Inv_log. Qed.

(** Writing a field other than the handle keeps it too. *)
Lemma Inv_update this f w :
  (∀ T, threadHandle_ (f T) = threadHandle_ T) →
  Inv w → Inv (update this f w).
Proof.
  intros Hf. apply Inv_ext; try done. intros t. by apply handle_update.
Qed.


(** lines 127-129, with a handle that is new *)
Lemma Inv_created w w' this h :
  Inv w → threadHandle_ (deref this w) = 0%Z → this ≠ null →
  h ≠ 0%Z → natives w !! h = None →
  runningThreads w' = runningThreads w →
  natives w' = <[h := mkNative this pcEntry true]> (natives w) →
  threadHandle_ (deref this w') = h →
  (∀ t, t ≠ this → threadHandle_ (deref t w') = threadHandle_ (deref t w)) →
  Inv w'.
Proof.
  intros I Hidle Hnull Hh0 Hfresh Hreg Hnat Hh' Hh.
  split; rewrite ?Hreg.
  - apply I.
  - intros h1 n1. rewrite Hnat. lookup_cases h1 h.
    + intros [= <-]. simpl. repeat split; done.
    + apply I.
  - intros t Ht. destruct (decide (t = this)) as [->|Hne]; [congruence|].
    rewrite Hh in Ht by done. by apply (inv_idle w I t).
  - intros t Ht. rewrite Hnat. destruct (decide (t = this)) as [->|Hne].
    + rewrite Hh', lookup_insert_eq. eexists; split; [done|]. simpl.
      repeat split; try done. intros Hin. by apply (inv_idle w I this) in Hin.
    + rewrite Hh in Ht |- * by done.
      destruct (inv_running w I t Ht) as (n0 & Hn0 & Ho0 & Ha0 & Hp0 & Hiff).
      lookup_cases (threadHandle_ (deref t w)) h; [congruence|].
      exists n0. done.
  - intros h1 n1. rewrite Hnat. lookup_cases h1 h.
    + intros [= <-]. simpl. congruence.
    + intros Hn1 Hne. apply (inv_stale w I h1 n1 Hn1).
      destruct (decide (owner n1 = this)) as [Eo|Eo].
      * rewrite Eo, Hidle. by destruct (inv_natives w I h1 n1 Hn1) as (?&_).
      * by rewrite <- Hh.
Qed.

(** lines 202-207 *)
Lemma Inv_killed w w' this :
  Inv w → threadHandle_ (deref this w) ≠ 0%Z →
  runningThreads w' = VoidArray_removeValue this (runningThreads w) →
  natives w' = alter terminate (threadHandle_ (deref this w)) (natives w) →
  threadHandle_ (deref this w') = 0%Z →
  (∀ t, t ≠ this → threadHandle_ (deref t w') = threadHandle_ (deref t w)) →
  Inv w'.
Proof.
  intros I Hrun Hreg Hnat Hh' Hh.
  set (h := threadHandle_ (deref this w)) in *.
  destruct (inv_running w I this Hrun) as (n & Hn & Ho & Ha & Hp & Hiff).
  fold h in Hn.
  split; rewrite ?Hreg.
  - apply removeValue_NoDup, I.
  - intros h1 n1. rewrite Hnat. destruct (decide (h1 = h)) as [->|E].
    + rewrite lookup_alter_eq, Hn. simpl. intros [= <-]. simpl.
      apply (inv_natives w I h n Hn).
    + rewrite lookup_alter_ne by done. apply I.
  - intros t Ht. destruct (decide (t = this)) as [->|Hne].
    + apply removeValue_gone, I.
    + rewrite Hh in Ht by done. intros Hin%elem_of_removeValue.
      by apply (inv_idle w I t).
  - intros t Ht. destruct (decide (t = this)) as [->|Hne]; [congruence|].
    rewrite Hh in Ht |- * by done. rewrite Hnat.
    destruct (inv_running w I t Ht) as (n0 & Hn0 & Ho0 & Ha0 & Hp0 & Hiff0).
    assert (threadHandle_ (deref t w) ≠ h) as Hneh.
    { intros E. rewrite E in Hn0. congruence. }
    rewrite lookup_alter_ne by done.
    exists n0. repeat split; try done;
      rewrite elem_of_removeValue_ne by done; tauto.
  - intros h1 n1. rewrite Hnat. destruct (decide (h1 = h)) as [->|E].
    + rewrite lookup_alter_eq, Hn. simpl. intros [= <-]. simpl. by left.
    + rewrite lookup_alter_ne by done.
      intros Hn1 Hne. apply (inv_stale w I h1 n1 Hn1).
      destruct (decide (owner n1 = this)) as [Eo|Eo].
      * rewrite Eo. fold h. congruence.
      * by rewrite <- Hh.
Qed.

Lemma Inv_startThread this w :
  handles_fresh → this ≠ null → Inv w → Inv (exec (startThread this) w).
Proof.
  intros Hfresh Hnull I.
  destruct (running this w) eqn:Hr.
  { rewrite startThread_running_exec by done. by apply Inv_update. }
  rewrite startThread_idle_exec by done.
  assert (Hidle : threadHandle_ (deref this w) = 0%Z).
  { unfold running in Hr. apply negb_false_iff in Hr. by apply Z.eqb_eq. }
  set (w1 := update this (set_threadShouldExit_ false) w).
  set (h := createThread_answer w1 this).
  destruct (decide (h = 0%Z)) as [E|E].
  - apply Inv_ext with w; wsimpl; try done.
    intros t. rewrite (handle_update this t signal_startSuspensionEvent_) by done.
    wsimpl. rewrite deref_update. case_decide as Et.
    + subst t. simpl. congruence.
    + unfold w1. by rewrite deref_log, deref_update_ne.
  - apply (Inv_created w _ this h); wsimpl; try done.
    + apply (Hfresh w1 this). done.
    + intros t Hne. unfold w1. by wother.
Qed.

Lemma Inv_setPriority this priority w :
  Inv w → Inv (exec (setPriority this priority) w).
Proof.
  intros I. unfold setPriority, exec, bind, gets, when, modify, ret,
    juce_setThreadPriority. simpl.
  destruct (setThreadPriority_answer _ _ _); simpl.
  - by apply Inv_update, Inv_log.
  - by apply Inv_log.
Qed.

Lemma Inv_startThread_priority this priority w :
  handles_fresh → this ≠ null → Inv w →
  Inv (exec (startThread_priority this priority) w).
Proof.
  intros Hfresh Hnull I.
  destruct (running this w) eqn:Hr.
  - rewrite startThread_priority_running by done. by apply Inv_setPriority.
  - rewrite startThread_priority_idle by done.
    by apply Inv_startThread, Inv_update.
Qed.

Lemma stopThread_kill_exec this w :
  exec (stopThread_kill this) w
  = log EvUnlock
      (set_runningThreads (VoidArray_removeValue this)
         (log (EvRegistryRemove this)
            (log EvLock
               (update this (set_threadId_ 0)
                  (update this (set_threadHandle_ 0)
                     (log (EvKillThread (threadHandle_ (deref this w)))
                        (set_natives (alter terminate (threadHandle_ (deref this w)))
                           (log (EvLog "!! killing thread by force !!") w)))))))).
Proof. reflexivity. Qed.

Lemma Inv_stopThread_kill this w :
  running this w = true → Inv w → Inv (exec (stopThread_kill this) w).
Proof.
  intros Hr I. rewrite stopThread_kill_exec.
  unfold running in Hr. apply negb_true_iff, Z.eqb_neq in Hr.
  apply (Inv_killed w _ this); wsimpl; try done.
  intros t Hne. by wother.
Qed.

End Lifecycle.

(** *** Waiting for a thread *)

Section Waiting.
Context `{Platform}.

Lemma poll_world_S k w :
  poll_world (S k) w = poll_world k (sleep sleepMsPerIteration w).
Proof. reflexivity. Qed.

(** With a positive timeout the loop returns after at most [count + 1]
    polls; [count] counts the sleeps that are still allowed. *)
Lemma wait_loop_positive polls this t count w b w' :
  (0 < t)%Z → (0 ≤ count)%Z →
  waitForThreadToExit_loop polls this t count w = Some (b, w') →
  ∃ k, k ≤ Z.to_nat count ∧ w' = poll_world k w ∧
       (∀ j, j < k → running this (poll_world j w) = true) ∧
       running this w' = negb b ∧
       (b = false → k = Z.to_nat count).
Proof.
  intros Ht. revert count w.
  induction polls as [|polls IH]; intros count w Hc; simpl; [done|].
  destruct (running this w) eqn:Hr.
  - assert ((0 <? t)%Z = true) as -> by lia. simpl.
    destruct (count - 1 <? 0)%Z eqn:Hlt.
    + intros [= <- <-]. exists 0. simpl.
      apply Z.ltb_lt in Hlt. repeat split; try done; lia.
    + apply Z.ltb_ge in Hlt. intros Hloop.
      destruct (IH _ _ Hlt Hloop) as (k & Hk & -> & Hbefore & Hend & Hfalse).
      exists (S k). rewrite poll_world_S. repeat split; try done.
      * lia.
      * intros [|j] Hj; [done|]. rewrite poll_world_S. apply Hbefore. lia.
      * intros Hb. specialize (Hfalse Hb). lia.
  - intros [= <- <-]. exists 0. simpl. repeat split; try done; lia.
Qed.

Lemma wait_loop_total polls this t count w :
  (0 < t)%Z → (0 ≤ count < Z.of_nat polls)%Z →
  is_Some (waitForThreadToExit_loop polls this t count w).
Proof.
  intros Ht. revert count w.
  induction polls as [|polls IH]; intros count w Hc; simpl; [lia|].
  destruct (running this w); [|done].
  assert ((0 <? t)%Z = true) as -> by lia. simpl.
  destruct (count - 1 <? 0)%Z eqn:Hlt; [done|].
  apply Z.ltb_ge in Hlt. apply IH. lia.
Qed.

(** Without a positive timeout the loop has no way to answer [false]. *)
Lemma wait_loop_unbounded polls this t count w b w' :
  (t ≤ 0)%Z →
  waitForThreadToExit_loop polls this t count w = Some (b, w') →
  b = true ∧
  ∃ k, k < polls ∧ w' = poll_world k w ∧ running this w' = false ∧
       (∀ j, j < k → running this (poll_world j w) = true).
Proof.
  intros Ht. revert w.
  induction polls as [|polls IH]; intros w; simpl; [done|].
  destruct (running this w) eqn:Hr.
  - assert ((0 <? t)%Z = false) as -> by lia. simpl. intros Hloop.
    destruct (IH _ Hloop) as (-> & k & Hk & -> & Hend & Hbefore).
    split; [done|]. exists (S k). rewrite poll_world_S.
    repeat split; try done; try lia.
    intros [|j] Hj; [done|]. rewrite poll_world_S. apply Hbefore. lia.
  - intros [= <- <-]. split; [done|]. exists 0. simpl.
    repeat split; try done; lia.
Qed.

Lemma wait_loop_unbounded_returns polls this t count w k :
  (t ≤ 0)%Z → k < polls →
  running this (poll_world k w) = false →
  (∀ j, j < k → running this (poll_world j w) = true) →
  waitForThreadToExit_loop polls this t count w = Some (true, poll_world k w).
Proof.
  intros Ht. revert w k.
  induction polls as [|polls IH]; intros w k Hk Hend Hbefore; simpl; [lia|].
  destruct k as [|k].
  - simpl in Hend. by rewrite Hend.
  - pose proof (Hbefore 0 ltac:(lia)) as H0. simpl in H0. rewrite H0.
    assert ((0 <? t)%Z = false) as -> by lia. simpl.
    apply IH; [lia|done|].
    intros j Hj. apply (Hbefore (S j)). lia.
Qed.

(** C7, as the code has it. With a positive timeout [t] the call returns
    within [t / 5 + 1] polls, five milliseconds of sleep apart; it answers
    [true] iff one of these polls finds the handle null, and when it answers
    [false] it has made exactly [t / 5] sleeps and the thread still runs.
    With a timeout that is zero or negative there is no bound: the call
    never answers [false], and it answers [true] at the first poll that finds
    the handle null, however late that is. *)
Theorem waitForThreadToExit_spec polls this t w :
  ((0 < t)%Z → (Z.quot t 5 < Z.of_nat polls)%Z →
     ∃ b k,
       waitForThreadToExit polls this t w = Some (b, poll_world k w) ∧
       k ≤ Z.to_nat (Z.quot t 5) ∧
       (∀ j, j < k → running this (poll_world j w) = true) ∧
       running this (poll_world k w) = negb b ∧
       (b = false → k = Z.to_nat (Z.quot t 5))) ∧
  ((t ≤ 0)%Z →
     (∀ b w', waitForThreadToExit polls this t w = Some (b, w') →
        b = true ∧ running this w' = false) ∧
     (∀ k, k < polls →
        running this (poll_world k w) = false →
        (∀ j, j < k → running this (poll_world j w) = true) →
        waitForThreadToExit polls this t w = Some (true, poll_world k w))).
Proof.
  unfold waitForThreadToExit, sleepMsPerIteration. split.
  - intros Ht Hp.
    assert (0 ≤ Z.quot t 5)%Z as Hq by (apply Z.quot_pos; lia).
    destruct (wait_loop_total polls this t (Z.quot t 5) w Ht (conj Hq Hp))
      as [[b w'] Hw].
    destruct (wait_loop_positive _ _ _ _ _ _ _ Ht Hq Hw)
      as (k & Hk & -> & Hbefore & Hend & Hfalse).
    exists b, k. done.
  - intros Ht. split.
    + intros b w' Hw.
      destruct (wait_loop_unbounded _ _ _ _ _ _ _ Ht Hw) as (-> & k & _ & _ & ? & _).
      done.
    + intros k Hk Hend Hbefore. by apply wait_loop_unbounded_returns.
Qed.

End Waiting.

(** *** Stopping a thread *)

Section Stopping.
Context `{Platform}.
Local Open Scope juce_scope.

Lemma kill_count_app w w' es :
  trace w' = trace w ++ es →
  kill_count w' = kill_count w + length (filter (λ e, isKill e = true) es).
Proof.
  intros Htr. unfold kill_count. by rewrite Htr, filter_app, length_app.
Qed.

Lemma kill_count_ext w w' : trace w' = trace w → kill_count w' = kill_count w.
Proof. intros Htr. unfold kill_count. by rewrite Htr. Qed.

(** The trampoline never terminates a thread by force. *)
Lemma kill_count_tramp_step s w : kill_count (tramp_step s w) = kill_count w.
Proof.
  destruct s as [me o]. unfold tramp_step.
  destruct (natives w !! me) as [n|] eqn:Hn; [|done].
  destruct (alive n) eqn:Ha; [|done].
  destruct (pc n) eqn:Hpc; try done; run_statement;
    unfold kill_count; wsimpl; rewrite ?filter_app; simpl;
    rewrite ?length_app; simpl; lia.
Qed.

Lemma kill_count_yield w : kill_count (yield w) = kill_count w.
Proof.
  unfold yield. destruct (tape w) as [|steps rest]; [done|].
  change (kill_count w) with (kill_count (set_tape rest w)).
  generalize (set_tape rest w). clear w.
  induction steps as [|s steps IH]; intros w; simpl; [done|].
  by rewrite IH, kill_count_tramp_step.
Qed.

Lemma kill_count_sleep ms w : kill_count (sleep ms w) = kill_count w.
Proof.
  unfold sleep. rewrite kill_count_yield. unfold kill_count. wsimpl.
  rewrite filter_app, length_app. simpl. lia.
Qed.

Lemma kill_count_poll_world k w : kill_count (poll_world k w) = kill_count w.
Proof.
  revert w. induction k as [|k IH]; intros w; simpl; [done|].
  by rewrite IH, kill_count_sleep.
Qed.

Lemma Inv_poll_world k w : Inv w → Inv (poll_world k w).
Proof.
  revert w. induction k as [|k IH]; intros w I; simpl; [done|].
  by apply IH, Inv_sleep.
Qed.

(** Whatever the timeout, the loop ends in the world of one of its polls. *)
Lemma wait_loop_poll_world polls this t count w b w' :
  waitForThreadToExit_loop polls this t count w = Some (b, w') →
  ∃ k, k < polls ∧ w' = poll_world k w.
Proof.
  revert count w.
  induction polls as [|polls IH]; intros count w; simpl; [done|].
  destruct (running this w).
  - destruct ((0 <? t)%Z && _).
    + intros [= <- <-]. exists 0. split; [lia|done].
    + intros Hloop. destruct (IH _ _ Hloop) as (k & Hk & ->).
      exists (S k). split; [lia|done].
  - intros [= <- <-]. exists 0. split; [lia|done].
Qed.

Lemma signal_and_wait_spec polls this t w w2 :
  stopThread_signal_and_wait polls this t w = Some w2 →
  (Inv w → Inv w2) ∧ kill_count w2 = kill_count w.
Proof.
  unfold stopThread_signal_and_wait.
  set (w1 := exec (signalThreadShouldExit this ;; notify this) w).
  assert (Hw1 : w1 = update this signal_defaultEvent_
                       (update this (set_threadShouldExit_ true) w)) by done.
  assert (I1 : Inv w → Inv w1).
  { intros I. rewrite Hw1. by repeat (apply Inv_update; [done|]). }
  assert (K1 : kill_count w1 = kill_count w) by by rewrite Hw1.
  case_decide as Ht.
  - destruct (waitForThreadToExit polls this t w1) as [[b w']|] eqn:Hw; [|done].
    intros [= <-]. unfold waitForThreadToExit in Hw.
    destruct (wait_loop_poll_world _ _ _ _ _ _ _ Hw) as (k & _ & ->).
    split.
    + intros I. by apply Inv_yield, Inv_poll_world, I1.
    + by rewrite kill_count_yield, kill_count_poll_world.
  - intros [= <-]. split.
    + intros I. by apply Inv_yield, I1.
    + by rewrite kill_count_yield.
Qed.

Lemma signal_and_wait_returns polls this t w :
  (0 ≤ t)%Z → (Z.quot t 5 < Z.of_nat polls)%Z →
  is_Some (stopThread_signal_and_wait polls this t w).
Proof.
  intros Ht Hp. unfold stopThread_signal_and_wait.
  case_decide as Hz; [|done].
  assert (0 ≤ Z.quot t 5)%Z as Hq by (apply Z.quot_pos; lia).
  destruct (wait_loop_total polls this t (Z.quot t 5)
              (exec (signalThreadShouldExit this ;; notify this) w))
    as [[b w'] Hw]; [lia|done|].
  unfold waitForThreadToExit, sleepMsPerIteration. by rewrite Hw.
Qed.

Lemma stopThread_kill_post this w :
  running this w = true → Inv w →
  let w' := exec (stopThread_kill this) w in
  Inv w' ∧
  threadHandle_ (deref this w') = 0%Z ∧
  threadId_ (deref this w') = 0%Z ∧
  (this ∉ runningThreads w') ∧
  kill_count w' = S (kill_count w) ∧
  alive <$> natives w' !! threadHandle_ (deref this w) = Some false ∧
  trace w' = trace w ++ [EvLog "!! killing thread by force !!";
                         EvKillThread (threadHandle_ (deref this w));
                         EvLock; EvRegistryRemove this; EvUnlock].
Proof.
  intros Hr I w'. split; [by apply Inv_stopThread_kill|].
  subst w'. rewrite stopThread_kill_exec. wsimpl.
  repeat split; try done.
  - apply removeValue_gone, I.
  - unfold kill_count. wsimpl. rewrite !filter_app, !length_app. simpl. lia.
  - unfold running in Hr. apply negb_true_iff, Z.eqb_neq in Hr.
    destruct (inv_running w I this Hr) as (n & Hn & _).
    by rewrite lookup_alter_eq, Hn.
  - by rewrite <- !app_assoc.
Qed.

(** A timeout that is not negative makes [stopThread] return. *)
Lemma stopThread_returns polls this t w :
  (0 ≤ t)%Z → (Z.quot t 5 < Z.of_nat polls)%Z →
  is_Some (stopThread polls this t w).
Proof.
  intros Ht Hp. unfold stopThread. destruct (running this w); [|done].
  destruct (signal_and_wait_returns polls this t w Ht Hp) as [w2 ->].
  by destruct (running this w2).
Qed.

(** What holds when [stopThread] has returned, for every timeout. *)
Lemma stopThread_post polls this t w w' :
  Inv w → stopThread polls this t w = Some w' →
  Inv w' ∧
  threadHandle_ (deref this w') = 0%Z ∧
  (this ∉ runningThreads w') ∧
  (if running this w then
     ∃ w2, stopThread_signal_and_wait polls this t w = Some w2 ∧
           kill_count w2 = kill_count w ∧
           if running this w2
           then w' = exec (stopThread_kill this) w2 ∧
                kill_count w' = S (kill_count w) ∧
                threadId_ (deref this w') = 0%Z ∧
                alive <$> natives w' !! threadHandle_ (deref this w2) = Some false ∧
                trace w' = trace w2 ++
                  [EvLog "!! killing thread by force !!";
                   EvKillThread (threadHandle_ (deref this w2));
                   EvLock; EvRegistryRemove this; EvUnlock]
           else w' = w2 ∧ kill_count w' = kill_count w
   else w' = w).
Proof.
  intros I. unfold stopThread.
  assert (Hidle : ∀ w0, Inv w0 → running this w0 = false →
            threadHandle_ (deref this w0) = 0%Z ∧ this ∉ runningThreads w0).
  { intros w0 I0 Hr. unfold running in Hr. apply negb_false_iff, Z.eqb_eq in Hr.
    split; [done|]. by apply (inv_idle w0 I0). }
  destruct (running this w) eqn:Hr.
  - destruct (stopThread_signal_and_wait polls this t w) as [w2|] eqn:Hw; [|done].
    destruct (signal_and_wait_spec _ _ _ _ _ Hw) as [I2 K2].
    specialize (I2 I).
    destruct (running this w2) eqn:Hr2; intros [= <-].
    + destruct (stopThread_kill_post this w2 Hr2 I2) as (?&?&?&?&?&?&?).
      split; [done|]. split; [done|]. split; [done|].
      exists w2. rewrite Hr2.
      split; [done|]. split; [done|]. split; [done|].
      split; [congruence|]. split; [done|]. split; done.
    + destruct (Hidle w2 I2 Hr2).
      split; [done|]. split; [done|]. split; [done|].
      exists w2. rewrite Hr2. done.
  - intros [= <-]. destruct (Hidle w I Hr). done.
Qed.


End Stopping.

(** *** Stopping all threads *)

Section StoppingAll.
Context `{Platform}.
Local Open Scope juce_scope.

(** lines 279-280 set flags and nothing else. *)
Lemma stopAllThreads_signal_spec i w :
  let w' := exec (stopAllThreads_signal i) w in
  result (stopAllThreads_signal i) w = Normal tt ∧
  runningThreads w' = runningThreads w ∧
  natives w' = natives w ∧
  trace w' = trace w ∧
  tape w' = tape w ∧
  (∀ t, threadHandle_ (deref t w') = threadHandle_ (deref t w)) ∧
  (∀ t, threadShouldExit_ (deref t w) = true →
        threadShouldExit_ (deref t w') = true) ∧
  (∀ j, j < i →
        threadShouldExit_ (deref (VoidArray_index (runningThreads w) j) w') = true).
Proof.
  revert w. induction i as [|i IH]; intros w w'.
  { subst w'. simpl. repeat split; try done. intros j Hj. lia. }
  set (t0 := VoidArray_index (runningThreads w) i).
  set (w1 := update t0 (set_threadShouldExit_ true) w).
  assert (Hstep : stopAllThreads_signal (S i) w = stopAllThreads_signal i w1).
  { reflexivity. }
  subst w'. unfold exec, result. rewrite Hstep.
  destruct (IH w1) as (Hres & Hreg & Hnat & Htr & Htp & Hh & Hmono & Hset).
  unfold exec, result in *.
  split; [done|]. split; [by rewrite Hreg|]. split; [by rewrite Hnat|].
  split; [by rewrite Htr|]. split; [by rewrite Htp|].
  split.
  { intros t. rewrite Hh. unfold w1. by apply handle_update. }
  split.
  { intros t Ht. apply Hmono. unfold w1. rewrite deref_update.
    by case_decide. }
  intros j Hj. destruct (decide (j = i)) as [->|Hne].
  - apply Hmono. fold t0. unfold w1. by rewrite deref_update_eq.
  - apply (Hset j). lia.
Qed.

Lemma Inv_null w : Inv w → null ∉ runningThreads w.
Proof.
  intros I Hin.
  destruct (decide (threadHandle_ (deref null w) = 0%Z)) as [E|E].
  - by apply (inv_idle w I null).
  - destruct (inv_running w I null E) as (n & Hn & Ho & _).
    by destruct (inv_natives w I _ n Hn) as (_ & ? & _).
Qed.

Lemma VoidArray_index_null (a : list nat) :
  null ∉ a → VoidArray_index a 0 = null → a = [].
Proof.
  destruct a as [|x a]; [done|]. unfold VoidArray_index. simpl.
  intros Hn ->. exfalso. apply Hn. by left.
Qed.

Lemma VoidArray_index_elem (a : list nat) i :
  VoidArray_index a i ≠ null → VoidArray_index a i ∈ a.
Proof.
  unfold VoidArray_index. destruct (a !! i) as [x|] eqn:E; simpl; [|done].
  intros _. by eapply list_elem_of_lookup_2.
Qed.

Lemma elem_VoidArray_index (a : list nat) t :
  t ∈ a → ∃ j, j < length a ∧ VoidArray_index a j = t.
Proof.
  intros (j & Hj)%list_elem_of_lookup_1. exists j. split.
  - by eapply lookup_lt_Some.
  - unfold VoidArray_index. by rewrite Hj.
Qed.

(** lines 276-281 *)
Lemma stopAllThreads_signalAll_spec w :
  let w' := exec stopAllThreads_signalAll w in
  trace w' = trace w ++ [EvLock; EvUnlock] ∧
  runningThreads w' = runningThreads w ∧
  natives w' = natives w ∧
  tape w' = tape w ∧
  (∀ t, threadHandle_ (deref t w') = threadHandle_ (deref t w)) ∧
  (∀ t, t ∈ runningThreads w → threadShouldExit_ (deref t w') = true).
Proof.
  intros w'.
  set (n := length (runningThreads w)).
  assert (Hw' : w' = log EvUnlock (exec (stopAllThreads_signal n) (log EvLock w))).
  { subst w'. unfold stopAllThreads_signalAll, ScopedLock_runningThreadsLock,
      exec, bind, modify, gets, ret. simpl. fold n.
    destruct (stopAllThreads_signal_spec n (log EvLock w)) as (Hres & _).
    unfold result in Hres.
    destruct (stopAllThreads_signal n (log EvLock w)) as [[[]|] w2]; simpl in *;
      done. }
  destruct (stopAllThreads_signal_spec n (log EvLock w))
    as (_ & Hreg & Hnat & Htr & Htp & Hh & _ & Hset).
  rewrite Hw'.
  split; [by rewrite trace_log, Htr, trace_log, <- app_assoc|].
  split; [by rewrite registry_log, Hreg|].
  split; [by rewrite natives_log, Hnat|].
  split; [done|].
  split; [intros t; by rewrite deref_log, Hh|].
  intros t (j & Hj & <-)%elem_VoidArray_index. rewrite deref_log.
  by apply Hset.
Qed.

Lemma Inv_signalAll w : Inv w → Inv (exec stopAllThreads_signalAll w).
Proof.
  destruct (stopAllThreads_signalAll_spec w) as (_ & ? & ? & _ & ? & _).
  by apply Inv_ext.
Qed.

(** lines 285-287 *)
Lemma stopAllThreads_head_exec w :
  stopAllThreads_head w
  = (Normal (VoidArray_index (runningThreads w) 0),
     log EvUnlock (log (EvRegistryRead 0) (log EvLock w))).
Proof. reflexivity. Qed.

(** When the loop has ended, the registry is empty. *)
Lemma stopAllThreads_loop_post rounds polls t w w' :
  Inv w → stopAllThreads_loop rounds polls t w = Some w' →
  Inv w' ∧ runningThreads w' = [].
Proof.
  revert w. induction rounds as [|rounds IH]; intros w I; [done|].
  cbn [stopAllThreads_loop]. rewrite stopAllThreads_head_exec.
  set (wy := yield w). set (t0 := VoidArray_index (runningThreads wy) 0).
  set (w1 := log EvUnlock (log (EvRegistryRead 0) (log EvLock wy))).
  assert (Iy : Inv wy) by by apply Inv_yield.
  assert (I1 : Inv w1) by by repeat apply Inv_log.
  case_decide as Hnull.
  - intros [= <-]. split; [done|].
    apply VoidArray_index_null; [|done]. by apply Inv_null.
  - destruct (stopThread polls t0 t (yield w1)) as [w2|] eqn:Hs; [|done].
    intros Hloop. apply (IH w2); [|done].
    by destruct (stopThread_post polls t0 t (yield w1) w2 (Inv_yield _ I1) Hs).
Qed.


(** Termination: the native threads that can still be in the registry. *)

Lemma evolves_refl w : evolves w w.
Proof. intros h n Hn. exists n. done. Qed.

Lemma evolves_trans w1 w2 w3 : evolves w1 w2 → evolves w2 w3 → evolves w1 w3.
Proof.
  intros H12 H23 h n3 Hn3.
  destruct (H23 h n3 Hn3) as (n2 & Hn2 & Ho2 & Hp2).
  destruct (H12 h n2 Hn2) as (n1 & Hn1 & Ho1 & Hp1).
  exists n1. split; [done|]. split; [congruence|tauto].
Qed.

Lemma evolves_same w w' : natives w' = natives w → evolves w w'.
Proof. intros E h n Hn. rewrite E in Hn. exists n. done. Qed.

Lemma evolves_goto w w' me n p' :
  natives w !! me = Some n → alive n = true →
  natives w' = <[me := mkNative (owner n) p' true]> (natives w) →
  (pending (mkNative (owner n) p' true) = true → pending n = true) →
  evolves w w'.
Proof.
  intros Hn Ha Hnat Hp h n'. rewrite Hnat. lookup_cases h me.
  - intros [= <-]. exists n. done.
  - intros Hn'. exists n'. done.
Qed.

Lemma evolves_tramp_step s w : evolves w (tramp_step s w).
Proof.
  destruct s as [me o]. unfold tramp_step.
  destruct (natives w !! me) as [n|] eqn:Hn; [|apply evolves_refl].
  destruct (alive n) eqn:Ha; [|apply evolves_refl].
  destruct (pc n) eqn:Hpc; try apply evolves_refl; run_statement;
    (eapply (evolves_goto w _ me n); [done|done|wsimpl; done|]);
    unfold pending; simpl; rewrite Ha, Hpc; done.
Qed.

Lemma evolves_yield w : evolves w (yield w).
Proof.
  unfold yield. destruct (tape w) as [|steps rest]; [apply evolves_refl|].
  apply evolves_trans with (set_tape rest w); [by apply evolves_same|].
  generalize (set_tape rest w). clear w.
  induction steps as [|s steps IH]; intros w; simpl; [apply evolves_refl|].
  eapply evolves_trans; [apply evolves_tramp_step|apply IH].
Qed.

Lemma evolves_sleep ms w : evolves w (sleep ms w).
Proof.
  unfold sleep. eapply evolves_trans; [|apply evolves_yield].
  by apply evolves_same.
Qed.

Lemma evolves_poll_world k w : evolves w (poll_world k w).
Proof.
  revert w. induction k as [|k IH]; intros w; simpl; [apply evolves_refl|].
  eapply evolves_trans; [apply evolves_sleep|apply IH].
Qed.

Lemma evolves_kill this w : evolves w (exec (stopThread_kill this) w).
Proof.
  rewrite stopThread_kill_exec. intros h n'. wsimpl.
  destruct (decide (h = threadHandle_ (deref this w))) as [->|E].
  - rewrite lookup_alter_eq.
    destruct (natives w !! threadHandle_ (deref this w)) as [n|]; [|done].
    simpl. intros [= <-]. exists n. done.
  - rewrite lookup_alter_ne by done. intros Hn. exists n'. done.
Qed.

Lemma evolves_stopThread polls this t w w' :
  stopThread polls this t w = Some w' → evolves w w'.
Proof.
  unfold stopThread. destruct (running this w); [|intros [= <-]; apply evolves_refl].
  destruct (stopThread_signal_and_wait polls this t w) as [w2|] eqn:Hw; [|done].
  assert (evolves w w2) as H2.
  { unfold stopThread_signal_and_wait in Hw.
    set (w1 := exec (signalThreadShouldExit this ;; notify this) w) in *.
    assert (evolves w w1) as H1 by by apply evolves_same.
    case_decide.
    - destruct (waitForThreadToExit polls this t w1) as [[b w3]|] eqn:Hw3; [|done].
      injection Hw as <-. unfold waitForThreadToExit in Hw3.
      destruct (wait_loop_poll_world _ _ _ _ _ _ _ Hw3) as (k & _ & ->).
      eapply evolves_trans; [exact H1|].
      eapply evolves_trans; [apply evolves_poll_world|apply evolves_yield].
    - injection Hw as <-.
      eapply evolves_trans; [exact H1|apply evolves_yield]. }
  destruct (running this w2); intros [= <-]; [|done].
  eapply evolves_trans; [exact H2|apply evolves_kill].
Qed.

Lemma elem_of_pendingSet h w :
  h ∈ pendingSet w ↔ ∃ n, natives w !! h = Some n ∧ pending n = true.
Proof.
  unfold pendingSet. rewrite elem_of_dom. split.
  - intros [n Hn]. apply map_lookup_filter_Some in Hn as [? ?]. by exists n.
  - intros (n & Hn & Hp). exists n. by apply map_lookup_filter_Some.
Qed.

Lemma pendingSet_mono w w' : evolves w w' → pendingSet w' ⊆ pendingSet w.
Proof.
  intros E h. rewrite !elem_of_pendingSet. intros (n' & Hn' & Hp').
  destruct (E h n' Hn') as (n & Hn & _ & Hp). exists n. tauto.
Qed.

Lemma pending_holds n : pending n = true → alive n = true ∧ holds_handle (pc n) = true.
Proof.
  unfold pending. destruct (alive n); [|done]. simpl.
  by destruct (pc n).
Qed.

(** A registered thread that has been stopped leaves the set for good. *)
Lemma pendingSet_shrinks w w' t0 :
  Inv w → Inv w' → evolves w w' →
  t0 ∈ runningThreads w → threadHandle_ (deref t0 w') = 0%Z →
  size (pendingSet w') < size (pendingSet w).
Proof.
  intros I I' E Hin Hidle. apply subset_size.
  assert (Hrun : threadHandle_ (deref t0 w) ≠ 0%Z).
  { intros Hz. by apply (inv_idle w I t0). }
  destruct (inv_running w I t0 Hrun) as (n & Hn & Ho & Ha & Hp & Hiff).
  set (h0 := threadHandle_ (deref t0 w)) in *.
  apply (strict_spec_alt _ _). split; [by apply pendingSet_mono|].
  intros Heq. assert (h0 ∈ pendingSet w) as Hh0.
  { apply elem_of_pendingSet. exists n. split; [done|].
    unfold pending. rewrite Ha. simpl. apply orb_true_iff. right. tauto. }
  rewrite <- Heq in Hh0.
  apply elem_of_pendingSet in Hh0 as (n' & Hn' & Hp').
  destruct (E h0 n' Hn') as (n0 & Hn0 & Ho0 & _).
  assert (n0 = n) as -> by congruence.
  destruct (pending_holds n' Hp') as [Ha' Hh'].
  pose proof (Inv_current w' h0 n' I' Hn' Ha' Hh') as Hc.
  rewrite Ho0, Ho, Hidle in Hc. congruence.
Qed.

(** A timeout that is not negative makes the loop end, after at most as many
    rounds as there are such native threads, and one more. *)
Lemma stopAllThreads_loop_returns rounds polls t w :
  Inv w → (0 ≤ t)%Z → (Z.quot t 5 < Z.of_nat polls)%Z →
  size (pendingSet w) < rounds →
  is_Some (stopAllThreads_loop rounds polls t w).
Proof.
  intros I Ht Hp. revert w I.
  induction rounds as [|rounds IH]; intros w I Hsize; [lia|].
  cbn [stopAllThreads_loop]. rewrite stopAllThreads_head_exec.
  set (wy := yield w). set (t0 := VoidArray_index (runningThreads wy) 0).
  set (w1 := log EvUnlock (log (EvRegistryRead 0) (log EvLock wy))).
  assert (Iy : Inv wy) by by apply Inv_yield.
  assert (I1 : Inv w1) by by repeat apply Inv_log.
  case_decide as Hnull; [done|].
  destruct (stopThread_returns polls t0 t (yield w1) Ht Hp) as [w2 Hs].
  rewrite Hs.
  destruct (stopThread_post polls t0 t (yield w1) w2 (Inv_yield _ I1) Hs)
    as (I2 & Hidle & _).
  apply IH; [done|].
  assert (evolves wy w2) as E.
  { apply evolves_trans with w1; [by apply evolves_same|].
    eapply evolves_trans; [apply evolves_yield|].
    by eapply evolves_stopThread. }
  assert (size (pendingSet w2) < size (pendingSet wy)).
  { apply (pendingSet_shrinks wy w2 t0); try done.
    by apply VoidArray_index_elem. }
  assert (size (pendingSet wy) ≤ size (pendingSet w)).
  { apply subseteq_size, pendingSet_mono, evolves_yield. }
  lia.
Qed.

End StoppingAll.

(** *** The lifecycle as a whole *)

Section Reachable.
Context `{Platform}.
Local Open Scope juce_scope.

Lemma Inv_init : Inv (mkWorld ∅ [] ∅ [] []).
Proof.
  split; simpl; try done.
  - apply NoDup_nil_2.
  - intros t _. apply not_elem_of_nil.
Qed.

Lemma Inv_construct addr name w :
  heap w !! addr = None → Inv w →
  Inv (set_heap (insert addr (Thread_ctor name)) w).
Proof.
  intros Hfree. apply Inv_ext; try done.
  intros t. unfold deref. simpl.
  destruct (decide (addr = t)) as [->|Hne].
  - by rewrite lookup_insert_eq, Hfree.
  - by rewrite lookup_insert_ne.
Qed.

Lemma Inv_stopAllThreads rounds polls t w w' :
  Inv w → stopAllThreads rounds polls t w = Some w' →
  Inv w' ∧ runningThreads w' = [].
Proof.
  intros I Hs. unfold stopAllThreads in Hs.
  apply stopAllThreads_loop_post in Hs; [done|]. by apply Inv_signalAll.
Qed.

(** Every world of a process whose platform hands out new handles satisfies
    the invariant. *)
Lemma reachable_Inv w : handles_fresh → reachable w → Inv w.
Proof.
  intros Hfresh. induction 1.
  - apply Inv_init.
  - by apply Inv_construct.
  - by apply Inv_startThread.
  - by apply Inv_startThread_priority.
  - by apply Inv_setPriority.
  - by apply Inv_update.
  - by apply Inv_update.
  - by apply Inv_update.
  - by apply Inv_tramp_step.
  - by apply Inv_set_tape.
  - by eapply stopThread_post.
  - by eapply Inv_stopAllThreads.
Qed.



End Reachable.

(** *** The two readings of the trampoline agree *)

Section Agreement.
Context `{Platform}.
Local Open Scope juce_scope.

Lemma ignores_ret {A} (a : A) : ignores_natives (ret a).
Proof. done. Qed.

Lemma ignores_throw {A} : ignores_natives (@throw A).
Proof. done. Qed.

Lemma ignores_bind {A B} (c : M A) (k : A → M B) :
  ignores_natives c → (∀ a, ignores_natives (k a)) → ignores_natives (bind c k).
Proof.
  intros Hc Hk f w. unfold bind. rewrite Hc.
  destruct (c w) as [[a|] w1]; simpl; [apply Hk|done].
Qed.

Lemma ignores_modify (g : World → World) :
  (∀ f w, g (set_natives f w) = set_natives f (g w)) →
  ignores_natives (modify g).
Proof. intros Hg f w. unfold modify. simpl. by rewrite Hg. Qed.

Lemma ignores_gets {A} (g : World → A) :
  (∀ f w, g (set_natives f w) = g w) → ignores_natives (gets g).
Proof. intros Hg f w. unfold gets. simpl. by rewrite Hg. Qed.

Lemma ignores_when b (c : M unit) :
  ignores_natives c → ignores_natives (when b c).
Proof. destruct b; [done|]. intros _. apply ignores_ret. Qed.

Ltac ignores :=
  repeat first
    [ apply ignores_ret | apply ignores_throw
    | apply ignores_bind; [|intros ?]
    | apply ignores_when
    | apply ignores_modify; done
    | apply ignores_gets; done ].

Lemma ignores_register thread : ignores_natives (tep_register thread).
Proof. unfold tep_register, ScopedLock_runningThreadsLock. ignores. Qed.

Lemma ignores_captureId me thread : ignores_natives (tep_captureId me thread).
Proof. unfold tep_captureId, getCurrentThreadId. ignores. Qed.

Lemma ignores_setName thread : ignores_natives (tep_setName thread).
Proof. unfold tep_setName, juce_setCurrentThreadName. ignores. Qed.

Lemma ignores_gate thread : ignores_natives (tep_gate thread).
Proof. unfold tep_gate. ignores. Qed.

Lemma ignores_affinity thread : ignores_natives (tep_affinity thread).
Proof. unfold tep_affinity, setCurrentThreadAffinityMask. ignores. Qed.

Lemma ignores_run o thread : ignores_natives (run o thread).
Proof. unfold run. destruct o; ignores. Qed.

Lemma ignores_deregister thread : ignores_natives (tep_deregister thread).
Proof. unfold tep_deregister, ScopedLock_runningThreadsLock. ignores. Qed.

Lemma ignores_closeHandle thread : ignores_natives (tep_closeHandle thread).
Proof. unfold tep_closeHandle, juce_CloseThreadHandle. ignores. Qed.

Lemma ignores_resetHandle thread : ignores_natives (tep_resetHandle thread).
Proof. unfold tep_resetHandle. ignores. Qed.

Lemma ignores_resetId thread : ignores_natives (tep_resetId thread).
Proof. unfold tep_resetId. ignores. Qed.

Lemma goto_goto me thread p q w :
  goto me thread p (goto me thread q w) = goto me thread p w.
Proof. unfold goto, set_natives. simpl. by rewrite insert_insert_eq. Qed.

(** One move from a known program point. *)
Lemma plain_goto {A} me thread p (c : M A) next w :
  ignores_natives c →
  plain me thread c next (goto me thread p w)
  = goto me thread (match result c w with
                    | Normal a => next a
                    | Raised => pcCrashed
                    end) (exec c w).
Proof.
  intros Hc. unfold plain, goto, result, exec. rewrite Hc.
  destruct (c w) as [[a|] w1]; simpl; apply goto_goto.
Qed.

Lemma guarded_goto {A} me thread p (c : M A) next w :
  ignores_natives c →
  guarded me thread c next (goto me thread p w)
  = goto me thread (match result c w with
                    | Normal a => next a
                    | Raised => pcDeregister
                    end) (exec c w).
Proof.
  intros Hc. unfold guarded, goto, result, exec. rewrite Hc.
  destruct (c w) as [[a|] w1]; simpl; apply goto_goto.
Qed.

Lemma natives_goto me thread p w :
  natives (goto me thread p w) !! me = Some (mkNative thread p true).
Proof. unfold goto. simpl. apply lookup_insert_eq. Qed.

Lemma tramp_step_goto me o thread p w :
  tramp_step (me, o) (goto me thread p w) =
    match p with
    | pcEntry => goto me thread pcCaptureId (exec (tep_register thread) w)
    | pcCaptureId => goto me thread pcSetName (exec (tep_captureId me thread) w)
    | pcSetName => goto me thread pcGate (exec (tep_setName thread) w)
    | pcGate =>
        goto me thread
          (if signalled (startSuspensionEvent_ (deref thread w))
           then pcAffinity else pcDeregister)
          (exec (tep_gate thread) w)
    | pcAffinity => goto me thread pcRun (exec (tep_affinity thread) w)
    | pcRun => goto me thread pcDeregister (exec (run o thread) w)
    | pcDeregister => goto me thread pcCloseHandle (exec (tep_deregister thread) w)
    | pcCloseHandle => goto me thread pcResetHandle (exec (tep_closeHandle thread) w)
    | pcResetHandle => goto me thread pcResetId (exec (tep_resetHandle thread) w)
    | pcResetId => goto me thread pcDone (exec (tep_resetId thread) w)
    | pcDone => goto me thread pcDone w
    | pcCrashed => goto me thread pcCrashed w
    end.
Proof.
  unfold tramp_step. rewrite natives_goto. simpl.
  destruct p; try done.
  - rewrite plain_goto by apply ignores_register. done.
  - rewrite guarded_goto by apply ignores_captureId. done.
  - rewrite guarded_goto by apply ignores_setName.
    unfold result, tep_setName, bind, gets, when. simpl.
    by destruct (isNotEmpty _).
  - rewrite guarded_goto by apply ignores_gate. done.
  - rewrite guarded_goto by apply ignores_affinity.
    unfold result, tep_affinity, bind, gets, when. simpl.
    by destruct (negb _).
  - rewrite guarded_goto by apply ignores_run.
    by destruct o.
  - rewrite plain_goto by apply ignores_deregister. done.
  - rewrite plain_goto by apply ignores_closeHandle.
    unfold result, tep_closeHandle, when. by destruct JUCE_WIN32.
  - rewrite plain_goto by apply ignores_resetHandle. done.
  - rewrite plain_goto by apply ignores_resetId. done.
Qed.

Lemma exec_bind {A B} (c : M A) (k : A → M B) w a :
  result c w = Normal a → exec (bind c k) w = exec (k a) (exec c w).
Proof.
  unfold result, exec, bind. destruct (c w) as [[a'|] w1]; simpl; [|done].
  by intros [= ->].
Qed.

Lemma exec_TRY (c : M unit) w : exec (JUCE_TRY_CATCH_ALL_ASSERT c) w = exec c w.
Proof. unfold exec, JUCE_TRY_CATCH_ALL_ASSERT. by destruct (c w) as [[|] ?]. Qed.

Lemma result_TRY (c : M unit) w :
  result (JUCE_TRY_CATCH_ALL_ASSERT c) w = Normal tt.
Proof. unfold result, JUCE_TRY_CATCH_ALL_ASSERT. by destruct (c w) as [[|] ?]. Qed.

Lemma normal_setName thread w : result (tep_setName thread) w = Normal tt.
Proof.
  unfold result, tep_setName, bind, gets, when. simpl. by destruct (isNotEmpty _).
Qed.

Lemma normal_affinity thread w : result (tep_affinity thread) w = Normal tt.
Proof.
  unfold result, tep_affinity, bind, gets, when. simpl. by destruct (negb _).
Qed.

Lemma normal_closeHandle thread w : result (tep_closeHandle thread) w = Normal tt.
Proof. unfold result, tep_closeHandle, when. by destruct JUCE_WIN32. Qed.

(** The method as the composition of its statements. *)
Lemma threadEntryPoint_statements me o thread w :
  let w3 := exec (tep_setName thread)
              (exec (tep_captureId me thread) (exec (tep_register thread) w)) in
  let w4 := exec (tep_gate thread) w3 in
  let w6 := if signalled (startSuspensionEvent_ (deref thread w3))
            then exec (run o thread) (exec (tep_affinity thread) w4)
            else w4 in
  exec (threadEntryPoint me o thread) w
  = exec (tep_resetId thread)
      (exec (tep_resetHandle thread)
         (exec (tep_closeHandle thread) (exec (tep_deregister thread) w6))).
Proof.
  intros w3 w4 w6. unfold threadEntryPoint.
  rewrite (exec_bind _ _ _ tt) by done.
  rewrite (exec_bind _ _ _ tt) by apply result_TRY.
  rewrite (exec_bind _ _ _ tt) by done.
  rewrite (exec_bind _ _ _ tt) by apply normal_closeHandle.
  rewrite (exec_bind _ _ _ tt) by done.
  do 4 f_equal. rewrite exec_TRY. unfold tep_guarded_block.
  rewrite (exec_bind _ _ _ tt) by done.
  rewrite (exec_bind _ _ _ tt) by apply normal_setName.
  fold w3.
  rewrite (exec_bind _ _ _ (signalled (startSuspensionEvent_ (deref thread w3))))
    by done.
  fold w4. subst w6.
  destruct (signalled (startSuspensionEvent_ (deref thread w3))); [|done].
  unfold when. by rewrite (exec_bind _ _ _ tt) by apply normal_affinity.
Qed.

Lemma goto_id me thread p w :
  natives w !! me = Some (mkNative thread p true) → goto me thread p w = w.
Proof.
  intros Hn. unfold goto, set_natives. destruct w as [hp reg nat tr tp].
  simpl in *. by rewrite insert_id.
Qed.

(** Ten moves of a native thread that has just been created take it through
    the whole of [threadEntryPoint]: objects, registry and log end as the
    method leaves them, and the native thread has returned from it. *)
Lemma tramp_steps_agree me o thread w :
  natives w !! me = Some (mkNative thread pcEntry true) →
  foldl (λ w' s, tramp_step s w') w (replicate 10 (me, o))
  = goto me thread pcDone (exec (threadEntryPoint me o thread) w).
Proof.
  intros Hn. rewrite threadEntryPoint_statements.
  rewrite <- (goto_id me thread pcEntry w Hn) at 1.
  cbn [replicate foldl].
  rewrite !tramp_step_goto.
  destruct (signalled (startSuspensionEvent_ (deref thread _))) eqn:Hg.
  - by rewrite !tramp_step_goto.
  - by rewrite !tramp_step_goto.
Qed.

End Agreement.

(** ** Further properties of the code *)

(** *** Methods the invariant does not need *)

Section MoreSequential.
Context `{Platform}.
Local Open Scope juce_scope.

Lemma getCurrentThread_scan_spec i thisId w r :
  getCurrentThread_scan i thisId w = r →
  (∃ k, k < i ∧ VoidArray_index (runningThreads w) k = r ∧
        threadId_ (deref r w) = thisId ∧
        ∀ j, k < j < i →
             threadId_ (deref (VoidArray_index (runningThreads w) j) w) ≠ thisId)
  ∨ (r = null ∧
     ∀ j, j < i →
          threadId_ (deref (VoidArray_index (runningThreads w) j) w) ≠ thisId).
Proof.
  revert r. induction i as [|i IH]; intros r; simpl.
  - intros <-. right. split; [done|]. intros j Hj. lia.
  - case_decide as Hid.
    + intros <-. left. exists i. split; [lia|]. split; [done|]. split; [done|].
      intros j Hj. lia.
    + intros Hr. destruct (IH r Hr) as [(k & Hk & Hrk & Hidk & Hlater)|[-> Hnone]].
      * left. exists k. split; [lia|]. split; [done|]. split; [done|].
        intros j Hj. destruct (decide (j = i)) as [->|Hne]; [done|].
        apply Hlater. lia.
      * right. split; [done|]. intros j Hj.
        destruct (decide (j = i)) as [->|Hne]; [done|]. apply Hnone. lia.
Qed.

Lemma getCurrentThread_scan_ext i thisId w w' :
  runningThreads w' = runningThreads w → heap w' = heap w →
  getCurrentThread_scan i thisId w' = getCurrentThread_scan i thisId w.
Proof.
  intros Hreg Hheap. induction i as [|i IH]; simpl; [done|].
  unfold deref. by rewrite Hreg, Hheap, IH.
Qed.

(** X1. [getCurrentThread()] changes nothing but the log of the lock, and
    answers the last entry of the registry whose [threadId_] is the caller's
    identifier; it answers null when no entry has it. If exactly one
    registered [Thread] carries the identifier, that one is the answer. *)
Theorem getCurrentThread_finds_last_match thisId w :
  ∃ r,
    getCurrentThread thisId w = (Normal r, log EvUnlock (log EvLock w)) ∧
    ((∃ k, runningThreads w !! k = Some r ∧
           threadId_ (deref r w) = thisId ∧
           ∀ j t, k < j → runningThreads w !! j = Some t →
                  threadId_ (deref t w) ≠ thisId)
     ∨ (r = null ∧
        ∀ t, t ∈ runningThreads w → threadId_ (deref t w) ≠ thisId)) ∧
    (∀ t, t ∈ runningThreads w → threadId_ (deref t w) = thisId →
          (∀ t', t' ∈ runningThreads w → threadId_ (deref t' w) = thisId → t' = t) →
          r = t).
Proof.
  set (r := getCurrentThread_scan (length (runningThreads w)) thisId w).
  exists r. split.
  { unfold getCurrentThread, ScopedLock_runningThreadsLock, bind, modify, gets, ret.
    simpl. by rewrite (getCurrentThread_scan_ext _ _ w (log EvLock w)). }
  assert (Hidx : ∀ j t, runningThreads w !! j = Some t →
                        VoidArray_index (runningThreads w) j = t).
  { intros j t Hj. unfold VoidArray_index. by rewrite Hj. }
  destruct (getCurrentThread_scan_spec _ thisId w r eq_refl)
    as [(k & Hk & Hrk & Hid & Hlater)|[Hr Hnone]].
  - destruct (lookup_lt_is_Some_2 (runningThreads w) k Hk) as [t Ht].
    assert (t = r) as -> by (by rewrite <- Hrk; symmetry; apply Hidx).
    split.
    + left. exists k. split; [done|]. split; [done|].
      intros j t Hj Hjt. rewrite <- (Hidx j t Hjt). apply Hlater.
      split; [done|]. by eapply lookup_lt_Some.
    + intros t Hin Hidt Huniq. apply Huniq; [|done].
      by eapply list_elem_of_lookup_2.
  - assert (Hall : ∀ t, t ∈ runningThreads w → threadId_ (deref t w) ≠ thisId).
    { intros t (j & Hj)%list_elem_of_lookup_1. rewrite <- (Hidx j t Hj).
      apply Hnone. by eapply lookup_lt_Some. }
    split; [right; done|].
    intros t Hin Hidt _. by destruct (Hall t Hin).
Qed.

(** X2. On an idle [Thread], [startThread()] asks the platform for a native
    thread and stores the answer as the handle, whatever it is: the [Thread]
    runs afterwards iff the answer is not null. In both cases the stored
    priority is then passed to [juce_setThreadPriority] with that handle, the
    null one (the calling thread) when no thread could be made, and the start
    gate is opened. *)
Theorem startThread_idle_outcome this w :
  running this w = false →
  let h := createThread_answer (update this (set_threadShouldExit_ false) w) this in
  let w' := exec (startThread this) w in
  threadHandle_ (deref this w') = h ∧
  (running this w' = true ↔ h ≠ 0%Z) ∧
  natives w' = (if decide (h = 0%Z) then natives w
                else <[h := mkNative this pcEntry true]> (natives w)) ∧
  (∃ worked, trace w' = trace w ++
     [EvCreateThread this h;
      EvSetThreadPriority h (threadPriority_ (deref this w)) worked]) ∧
  signalled (startSuspensionEvent_ (deref this w')) = true ∧
  threadShouldExit_ (deref this w') = false ∧
  runningThreads w' = runningThreads w ∧
  (∀ that, that ≠ this → deref that w' = deref that w).
Proof.
  intros Hr h w'. subst w'. rewrite startThread_idle_exec by done.
  cbv zeta. fold h.
  assert (Hrun : ∀ w0, threadHandle_ (deref this w0) = h →
                       (running this w0 = true ↔ h ≠ 0%Z)).
  { intros w0 Hh. unfold running. rewrite Hh.
    destruct (Z.eqb_spec h 0); simpl; intuition congruence. }
  destruct (decide (h = 0%Z)) as [E|E].
  - split; [by wsimpl|]. split; [apply Hrun; by wsimpl|].
    split; [by wsimpl|]. split; [eexists; wsimpl; by rewrite <- !app_assoc|].
    split; [by wsimpl|]. split; [by wsimpl|]. split; [by wsimpl|].
    intros that Hne. by wother.
  - split; [by wsimpl|]. split; [apply Hrun; by wsimpl|].
    split; [by wsimpl|]. split; [eexists; wsimpl; by rewrite <- !app_assoc|].
    split; [by wsimpl|]. split; [by wsimpl|]. split; [by wsimpl|].
    intros that Hne. by wother.
Qed.

(** X3. On a [Thread] with a null handle, [setPriority (p)] makes the very
    call that [setCurrentThreadPriority (p)] makes, on the null handle, and
    answers what it answers; the only difference is that it also stores [p]
    as the thread's priority when the call worked. *)
Theorem setPriority_idle_is_setCurrentThreadPriority this priority w :
  running this w = false →
  result (setPriority this priority) w = result (setCurrentThreadPriority priority) w ∧
  trace (exec (setPriority this priority) w)
    = trace (exec (setCurrentThreadPriority priority) w) ∧
  trace (exec (setCurrentThreadPriority priority) w)
    = trace w ++ [EvSetThreadPriority 0 priority (setThreadPriority_answer w 0 priority)] ∧
  exec (setPriority this priority) w
    = (if setThreadPriority_answer w 0 priority
       then update this (set_threadPriority_ priority)
              (exec (setCurrentThreadPriority priority) w)
       else exec (setCurrentThreadPriority priority) w) ∧
  heap (exec (setCurrentThreadPriority priority) w) = heap w.
Proof.
  intros Hr. unfold running in Hr. apply negb_false_iff, Z.eqb_eq in Hr.
  unfold result, exec. rewrite setPriority_exec, Hr.
  unfold setCurrentThreadPriority, juce_setThreadPriority. simpl.
  destruct (setThreadPriority_answer w 0 priority); done.
Qed.

(** X4. [setAffinityMask] stores the mask and calls nothing. The mask that
    is stored when the native thread comes past the start gate is the one,
    and the only one, it passes to [setCurrentThreadAffinityMask], and it
    passes none when the mask is zero or the gate was not opened. *)
Theorem setAffinityMask_takes_effect_in_trampoline me o this mask w :
  let w1 := exec (setAffinityMask this mask) w in
  let w_end := exec (threadEntryPoint me o this) w1 in
  trace w1 = trace w ∧
  natives w1 = natives w ∧
  runningThreads w1 = runningThreads w ∧
  deref this w1 = set_affinityMask_ mask (deref this w) ∧
  (∀ that, that ≠ this → deref that w1 = deref that w) ∧
  (∀ x, EvSetAffinity x ∈ drop (length (trace w)) (trace w_end) ↔
        x = mask ∧ mask ≠ 0%Z ∧
        signalled (startSuspensionEvent_ (deref this w)) = true).
Proof.
  intros w1 w_end.
  assert (Hw1 : w1 = update this (set_affinityMask_ mask) w) by reflexivity.
  split; [done|]. split; [done|]. split; [done|].
  split; [by rewrite Hw1, deref_update_eq|].
  split; [intros that Hne; by rewrite Hw1, deref_update_ne|].
  intros x.
  destruct (threadEntryPoint_exec me o this w1) as (_ & Htr & _).
  fold w_end in Htr. rewrite Htr.
  change (trace w1) with (trace w). rewrite drop_app_length.
  unfold guarded_block_log. rewrite Hw1, deref_update_eq. simpl.
  destruct (signalled (startSuspensionEvent_ (deref this w)));
    destruct (Z.eqb_spec mask 0);
    destruct (isNotEmpty _); destruct JUCE_WIN32; simpl;
    rewrite ?elem_of_cons, ?elem_of_nil; intuition congruence.
Qed.

End MoreSequential.

(** *** What the invariant says about the registry and the native threads *)

Section MoreLifecycle.
Context `{Platform}.
Local Open Scope juce_scope.

Lemma registered_holds p : registered p = true → holds_handle p = true.
Proof. by destruct p. Qed.

Lemma elem_of_registeredSet h w :
  h ∈ registeredSet w ↔
  ∃ n, natives w !! h = Some n ∧ alive n = true ∧ registered (pc n) = true.
Proof.
  unfold registeredSet. rewrite elem_of_dom. split.
  - intros [n Hn]. apply map_lookup_filter_Some in Hn as [? [? ?]]. by exists n.
  - intros (n & Hn & Ha & Hp). exists n. by apply map_lookup_filter_Some.
Qed.

Lemma Inv_registry_handles w :
  Inv w →
  NoDup ((λ t, threadHandle_ (deref t w)) <$> runningThreads w) ∧
  list_to_set ((λ t, threadHandle_ (deref t w)) <$> runningThreads w)
    = registeredSet w.
Proof.
  intros I.
  assert (Hmem : ∀ t, t ∈ runningThreads w →
            ∃ n, natives w !! threadHandle_ (deref t w) = Some n ∧
                 owner n = t ∧ alive n = true ∧ registered (pc n) = true).
  { intros t Hin.
    assert (threadHandle_ (deref t w) ≠ 0%Z) as Hh.
    { intros Hz. by apply (inv_idle w I t). }
    destruct (inv_running w I t Hh) as (n & Hn & Ho & Ha & _ & Hiff).
    exists n. repeat split; try done. by apply Hiff. }
  split.
  - apply NoDup_fmap_2_strong; [|apply I].
    intros t1 t2 Hin1 Hin2 Heq.
    destruct (Hmem t1 Hin1) as (n1 & Hn1 & Ho1 & _).
    destruct (Hmem t2 Hin2) as (n2 & Hn2 & Ho2 & _).
    simpl in Heq. rewrite Heq in Hn1. congruence.
  - apply set_eq. intros h.
    rewrite elem_of_list_to_set, list_elem_of_fmap, elem_of_registeredSet.
    split.
    + intros (t & -> & Hin). destruct (Hmem t Hin) as (n & Hn & _ & Ha & Hr).
      by exists n.
    + intros (n & Hn & Ha & Hr). exists (owner n).
      pose proof (registered_holds _ Hr) as Hp. split.
      * symmetry. by apply (Inv_current w h n).
      * by apply (Inv_current_member w h n).
Qed.



(** X7. In every world of the process the registry holds no [Thread] twice
    and no null pointer, so that [removeValue], which removes one entry,
    removes the [Thread], and the null that [runningThreads[0]] answers means
    that the registry is empty. *)
Theorem registry_has_no_duplicates_and_no_null w :
  handles_fresh → reachable w →
  NoDup (runningThreads w) ∧
  (null ∉ runningThreads w) ∧
  (∀ t, t ∉ VoidArray_removeValue t (runningThreads w)) ∧
  (VoidArray_index (runningThreads w) 0 = null ↔ runningThreads w = []).
Proof.
  intros Hf Hr. pose proof (reachable_Inv w Hf Hr) as I.
  pose proof (Inv_null w I) as Hnull.
  split; [apply I|]. split; [done|]. split.
  - intros t. apply removeValue_gone, I.
  - split; [by apply VoidArray_index_null|]. by intros ->.
Qed.

End MoreLifecycle.

(** *** What the native threads do and do not do *)

Section MoreTrampoline.
Context `{Platform}.
Local Open Scope juce_scope.

Lemma only_reset_refl T : only_id_and_handle_reset T T.
Proof. repeat split; try done. by left. Qed.

Lemma only_reset_trans T1 T2 T3 :
  only_id_and_handle_reset T1 T2 → only_id_and_handle_reset T2 T3 →
  only_id_and_handle_reset T1 T3.
Proof.
  intros (?&?&?&?&?&?&H12) (?&?&?&?&?&?&H23).
  repeat split; try congruence.
  destruct H23 as [E|E]; [|by right]. rewrite E. done.
Qed.

Lemma only_reset_set_id v T : only_id_and_handle_reset T (set_threadId_ v T).
Proof. repeat split; try done. by left. Qed.

Lemma only_reset_set_handle T : only_id_and_handle_reset T (set_threadHandle_ 0 T).
Proof. repeat split; try done. by right. Qed.

Lemma tramp_step_objects s w t :
  only_id_and_handle_reset (deref t w) (deref t (tramp_step s w)).
Proof.
  destruct s as [me o]. unfold tramp_step.
  destruct (natives w !! me) as [n|] eqn:Hn; [|apply only_reset_refl].
  destruct (alive n) eqn:Ha; [|apply only_reset_refl].
  destruct (pc n) eqn:Hpc; try apply only_reset_refl; run_statement;
    rewrite ?deref_set_natives, ?deref_log, ?deref_set_runningThreads;
    try apply only_reset_refl;
    rewrite deref_update; case_decide; subst;
    rewrite ?deref_log;
    first [apply only_reset_refl|apply only_reset_set_id|apply only_reset_set_handle].
Qed.

Lemma tramp_step_domain s w : dom (natives (tramp_step s w)) = dom (natives w).
Proof.
  destruct s as [me o]. unfold tramp_step.
  destruct (natives w !! me) as [n|] eqn:Hn; [|done].
  assert (Hin : is_Some (natives w !! me)) by by eexists.
  destruct (alive n) eqn:Ha; [|done].
  destruct (pc n) eqn:Hpc; try done; run_statement; wsimpl;
    by apply dom_insert_lookup_L.
Qed.

Lemma sleep_count_tramp_step s w : sleep_count (tramp_step s w) = sleep_count w.
Proof.
  destruct s as [me o]. unfold tramp_step.
  destruct (natives w !! me) as [n|] eqn:Hn; [|done].
  destruct (alive n) eqn:Ha; [|done].
  destruct (pc n) eqn:Hpc; try done; run_statement;
    unfold sleep_count; wsimpl; rewrite ?filter_app; simpl;
    rewrite ?length_app; simpl; lia.
Qed.

(** X8. Whatever moves the native threads make, in their trampolines, they
    create no native thread and terminate none, they make no caller sleep,
    and in a [Thread] object they write nothing but [threadId_] and the null
    they put into [threadHandle_]: name, priority, affinity mask, exit flag
    and both events stay as they are. *)
Theorem native_threads_only_reset_handle_and_id (steps : list EnvStep) w :
  let w' := foldl (λ w0 s, tramp_step s w0) w steps in
  dom (natives w') = dom (natives w) ∧
  kill_count w' = kill_count w ∧
  sleep_count w' = sleep_count w ∧
  tape w' = tape w ∧
  (∀ t, only_id_and_handle_reset (deref t w) (deref t w')).
Proof.
  revert w. induction steps as [|s steps IH]; intros w; simpl.
  { repeat split; try done. by left. }
  destruct (IH (tramp_step s w)) as (Hd & Hk & Hs & Htp & Ho).
  split; [by rewrite Hd, tramp_step_domain|].
  split; [by rewrite Hk, kill_count_tramp_step|].
  split; [by rewrite Hs, sleep_count_tramp_step|].
  split.
  { rewrite Htp. destruct s as [me o]. unfold tramp_step.
    destruct (natives w !! me) as [n|]; [|done].
    destruct (alive n); [|done].
    destruct (pc n); try done; by run_statement. }
  intros t. eapply only_reset_trans; [apply tramp_step_objects|apply Ho].
Qed.


Lemma step_from me o thread p w :
  p ≠ pcCrashed →
  (holds_handle p = true ∨ threadHandle_ (deref thread w) = 0%Z) →
  (p = pcDone → threadId_ (deref thread w) = 0%Z) →
  ∃ p' w',
    tramp_step (me, o) (goto me thread p w) = goto me thread p' w' ∧
    p' ≠ pcCrashed ∧ rank p' ≤ pred (rank p) ∧
    (holds_handle p' = true ∨ threadHandle_ (deref thread w') = 0%Z) ∧
    (p' = pcDone → threadId_ (deref thread w') = 0%Z).
Proof.
  intros Hc Hh Hid. rewrite tramp_step_goto.
  destruct p; try done.
  all: try (eexists _, _; split; [reflexivity|]; simpl;
            split; [done|]; split; [lia|]; split; [by left|]; done).
  - destruct (signalled (startSuspensionEvent_ (deref thread w)));
      eexists _, _; (split; [reflexivity|]); simpl;
      (split; [done|]); (split; [lia|]); (split; [by left|]); done.
  - eexists _, _; split; [reflexivity|]. simpl.
    split; [done|]. split; [lia|]. split; [|done].
    right. unfold exec, tep_resetHandle, modify. simpl. by rewrite deref_update_eq.
  - eexists _, _; split; [reflexivity|]. simpl.
    split; [done|]. split; [lia|].
    unfold exec, tep_resetId, modify. simpl. rewrite deref_update_eq. simpl.
    split; [|done]. right. by destruct Hh.
  - eexists _, _; split; [reflexivity|]. simpl.
    split; [done|]. split; [lia|]. split; [|by auto]. right. by destruct Hh.
Qed.

Lemma steps_from me thread (os : list RunOutcome) p w :
  rank p ≤ length os → p ≠ pcCrashed →
  (holds_handle p = true ∨ threadHandle_ (deref thread w) = 0%Z) →
  (p = pcDone → threadId_ (deref thread w) = 0%Z) →
  ∃ w', foldl (λ w0 s, tramp_step s w0) (goto me thread p w) ((λ o, (me, o)) <$> os)
          = goto me thread pcDone w' ∧
        threadHandle_ (deref thread w') = 0%Z ∧
        threadId_ (deref thread w') = 0%Z.
Proof.
  revert p w. induction os as [|o os IH]; intros p w Hrank Hc Hh Hid;
    simpl in Hrank.
  - assert (p = pcDone) as -> by (destruct p; try done; simpl in Hrank; lia).
    exists w. split; [done|]. split; [by destruct Hh|by apply Hid].
  - rewrite fmap_cons. cbn [foldl].
    destruct (step_from me o thread p w Hc Hh Hid)
      as (p' & w' & -> & Hc' & Hrank' & Hh' & Hid').
    apply IH; try done. lia.
Qed.

(** X9. A native thread that is alive and has not yet reset the handle, once
    [run()] is over whenever it is asked to be, ends the trampoline within
    ten moves, whatever the other fields hold; then the handle of its
    [Thread] is null, the thread id is zero, and the [Thread] is not in the
    registry. *)
Theorem trampoline_finishes w h n (os : list RunOutcome) :
  Inv w → natives w !! h = Some n → alive n = true →
  holds_handle (pc n) = true → length os = 10 →
  let w_end := foldl (λ w0 s, tramp_step s w0) w ((λ o, (h, o)) <$> os) in
  natives w_end !! h = Some (mkNative (owner n) pcDone true) ∧
  threadHandle_ (deref (owner n) w_end) = 0%Z ∧
  threadId_ (deref (owner n) w_end) = 0%Z ∧
  (owner n ∉ runningThreads w_end) ∧
  Inv w_end.
Proof.
  intros I Hn Ha Hp Hlen w_end.
  assert (Iend : Inv w_end) by by apply foldl_Inv.
  assert (Hw : w = goto h (owner n) (pc n) w).
  { symmetry. apply goto_id. rewrite Hn. f_equal. destruct n; simpl in *. by subst. }
  destruct (steps_from h (owner n) os (pc n) w) as (w' & Hend & Hh & Hid).
  { rewrite Hlen. destruct (pc n); simpl; lia. }
  { by destruct (inv_natives w I h n Hn) as (_ & _ & ?). }
  { by left. }
  { intros E. by rewrite E in Hp. }
  rewrite <- Hw in Hend. fold w_end in Hend.
  assert (Hd : ∀ t, deref t w_end = deref t w') by by rewrite Hend.
  split; [rewrite Hend; apply natives_goto|].
  split; [by rewrite Hd|]. split; [by rewrite Hd|].
  split; [|done]. apply (inv_idle w_end Iend). by rewrite Hd.
Qed.

End MoreTrampoline.

(** *** What a stop costs and what it leaves behind *)

Section MoreStopping.
Context `{Platform}.
Local Open Scope juce_scope.

Lemma foldl_objects (steps : list EnvStep) w t :
  only_id_and_handle_reset (deref t w)
    (deref t (foldl (λ w0 s, tramp_step s w0) w steps)).
Proof.
  revert w. induction steps as [|s steps IH]; intros w; simpl.
  - apply only_reset_refl.
  - eapply only_reset_trans; [apply tramp_step_objects|apply IH].
Qed.

Lemma objects_yield w t : only_id_and_handle_reset (deref t w) (deref t (yield w)).
Proof.
  unfold yield. destruct (tape w) as [|steps rest]; [apply only_reset_refl|].
  rewrite <- (deref_set_tape t rest w). apply foldl_objects.
Qed.

Lemma objects_sleep ms w t :
  only_id_and_handle_reset (deref t w) (deref t (sleep ms w)).
Proof.
  unfold sleep. rewrite <- (deref_log t (EvSleep ms) w). apply objects_yield.
Qed.

Lemma objects_poll_world k w t :
  only_id_and_handle_reset (deref t w) (deref t (poll_world k w)).
Proof.
  revert w. induction k as [|k IH]; intros w; simpl; [apply only_reset_refl|].
  eapply only_reset_trans; [apply objects_sleep|apply IH].
Qed.

Lemma running_stays_false t w w' :
  only_id_and_handle_reset (deref t w) (deref t w') →
  running t w = false → running t w' = false.
Proof.
  intros (_&_&_&_&_&_&Hh). unfold running.
  rewrite !negb_false_iff, !Z.eqb_eq. intros E. destruct Hh; congruence.
Qed.

Lemma sleep_count_yield w : sleep_count (yield w) = sleep_count w.
Proof.
  unfold yield. destruct (tape w) as [|steps rest]; [done|].
  change (sleep_count w) with (sleep_count (set_tape rest w)).
  generalize (set_tape rest w). clear w.
  induction steps as [|s steps IH]; intros w; simpl; [done|].
  by rewrite IH, sleep_count_tramp_step.
Qed.

Lemma sleep_count_sleep ms w : sleep_count (sleep ms w) = S (sleep_count w).
Proof.
  unfold sleep. rewrite sleep_count_yield. unfold sleep_count. wsimpl.
  rewrite filter_app, length_app. simpl. lia.
Qed.

Lemma sleep_count_poll_world k w :
  sleep_count (poll_world k w) = k + sleep_count w.
Proof.
  revert w. induction k as [|k IH]; intros w; simpl; [done|].
  rewrite IH, sleep_count_sleep. lia.
Qed.

Lemma sleep_count_kill this w :
  sleep_count (exec (stopThread_kill this) w) = sleep_count w.
Proof.
  rewrite stopThread_kill_exec. unfold sleep_count. wsimpl.
  rewrite !filter_app, !length_app. simpl. lia.
Qed.

Lemma kill_count_kill this w :
  kill_count (exec (stopThread_kill this) w) = S (kill_count w).
Proof.
  rewrite stopThread_kill_exec. unfold kill_count. wsimpl.
  rewrite !filter_app, !length_app. simpl. lia.
Qed.

Lemma objects_kill this w t :
  only_id_and_handle_reset (deref t w) (deref t (exec (stopThread_kill this) w)).
Proof.
  rewrite stopThread_kill_exec. wsimpl.
  rewrite !deref_update. case_decide; wsimpl; [|apply only_reset_refl].
  repeat split; try done. by right.
Qed.

Lemma domain_yield w : dom (natives (yield w)) = dom (natives w).
Proof.
  unfold yield. destruct (tape w) as [|steps rest]; [done|].
  change (natives w) with (natives (set_tape rest w)).
  generalize (set_tape rest w). clear w.
  induction steps as [|s steps IH]; intros w; simpl; [done|].
  by rewrite IH, tramp_step_domain.
Qed.

Lemma domain_poll_world k w : dom (natives (poll_world k w)) = dom (natives w).
Proof.
  revert w. induction k as [|k IH]; intros w; simpl; [done|].
  rewrite IH. unfold sleep. by rewrite domain_yield.
Qed.

(** X10. [waitForThreadToExit] is a [const] method that only polls and
    sleeps: whatever the timeout, when it returns it has made one sleep of
    five milliseconds for each poll but the last, its answer is whether the
    handle is null at that moment, it has terminated nothing and created
    nothing, and what has changed in the [Thread] objects meanwhile is what
    the trampolines write. *)
Theorem waitForThreadToExit_only_polls_and_sleeps polls this t w b w' :
  waitForThreadToExit polls this t w = Some (b, w') →
  b = negb (running this w') ∧
  ∃ k, k < polls ∧
       w' = poll_world k w ∧
       sleep_count w' = k + sleep_count w ∧
       kill_count w' = kill_count w ∧
       dom (natives w') = dom (natives w) ∧
       (∀ th, only_id_and_handle_reset (deref th w) (deref th w')).
Proof.
  intros Hw. pose proof Hw as Hw0. unfold waitForThreadToExit in Hw.
  split.
  - destruct (decide (0 < t)%Z) as [Ht|Ht].
    + assert (0 ≤ Z.quot t sleepMsPerIteration)%Z as Hq
        by (apply Z.quot_pos; unfold sleepMsPerIteration; lia).
      destruct (wait_loop_positive _ _ _ _ _ _ _ Ht Hq Hw) as (_ & _ & _ & _ & -> & _).
      by rewrite negb_involutive.
    + assert (t ≤ 0)%Z as Hle by lia.
      destruct (wait_loop_unbounded _ _ _ _ _ _ _ Hle Hw)
        as (-> & _ & _ & _ & Hend & _). by rewrite Hend.
  - destruct (wait_loop_poll_world _ _ _ _ _ _ _ Hw) as (k & Hk & ->).
    exists k. split; [done|]. split; [done|].
    split; [apply sleep_count_poll_world|].
    split; [apply kill_count_poll_world|].
    split; [apply domain_poll_world|].
    intros th. apply objects_poll_world.
Qed.

(** The world in which [stopThread] starts to wait: lines 188-189 are done. *)
Lemma signalled_world this w :
  exec (signalThreadShouldExit this ;; notify this) w
  = update this signal_defaultEvent_ (update this (set_threadShouldExit_ true) w).
Proof. reflexivity. Qed.

(** The path of a [stopThread] that found the thread running: [k] sleeps of
    the wait, one more preemption, and the second test of the handle. *)
Lemma stopThread_shape polls this t w w' :
  running this w = true → stopThread polls this t w = Some w' →
  ∃ k, let w1 := exec (signalThreadShouldExit this ;; notify this) w in
       let w2 := yield (poll_world k w1) in
       (t = 0%Z → k = 0) ∧
       (t ≠ 0%Z → ∃ b, waitForThreadToExit polls this t w1
                        = Some (b, poll_world k w1)) ∧
       w' = (if running this w2 then exec (stopThread_kill this) w2 else w2).
Proof.
  intros Hr. unfold stopThread, stopThread_signal_and_wait. rewrite Hr.
  set (w1 := exec (signalThreadShouldExit this ;; notify this) w).
  case_decide as Ht.
  - destruct (waitForThreadToExit polls this t w1) as [[b w2]|] eqn:Hw; [|done].
    pose proof Hw as Hw'. unfold waitForThreadToExit in Hw'.
    destruct (wait_loop_poll_world _ _ _ _ _ _ _ Hw') as (k & _ & ->).
    intros Hs. exists k. simpl. split; [done|]. split; [by exists b|].
    destruct (running this (yield (poll_world k w1))); by injection Hs.
  - intros Hs. exists 0. simpl. split; [done|]. split; [done|].
    destruct (running this (yield w1)); by injection Hs.
Qed.

Lemma stopThread_measures this w w' k :
  let w1 := exec (signalThreadShouldExit this ;; notify this) w in
  let w2 := yield (poll_world k w1) in
  w' = (if running this w2 then exec (stopThread_kill this) w2 else w2) →
  sleep_count w' = k + sleep_count w ∧
  kill_count w' = (if running this w2 then S (kill_count w) else kill_count w) ∧
  (∀ t', only_id_and_handle_reset (deref t' w1) (deref t' w')).
Proof.
  intros w1 w2 ->.
  assert (S2 : sleep_count w2 = k + sleep_count w).
  { unfold w2. by rewrite sleep_count_yield, sleep_count_poll_world. }
  assert (K2 : kill_count w2 = kill_count w).
  { unfold w2. by rewrite kill_count_yield, kill_count_poll_world. }
  assert (O2 : ∀ t', only_id_and_handle_reset (deref t' w1) (deref t' w2)).
  { intros t'. eapply only_reset_trans; [apply objects_poll_world|apply objects_yield]. }
  destruct (running this w2).
  - rewrite sleep_count_kill, kill_count_kill, K2. split; [done|]. split; [done|].
    intros t'. eapply only_reset_trans; [apply O2|apply objects_kill].
  - done.
Qed.



(** X13. With a negative timeout [stopThread] never terminates the thread by
    force: it returns only from a poll that found the handle null, one
    preemption later, and the handle is still null then, as the trampolines
    only ever set it to null.  And as long as every poll finds the thread
    running, the call does not return. *)
Theorem stopThread_negative_timeout_never_kills polls this t w :
  (t < 0)%Z → running this w = true →
  let w1 := exec (signalThreadShouldExit this ;; notify this) w in
  (∀ w', stopThread polls this t w = Some w' →
     ∃ k, k < polls ∧
          running this (poll_world k w1) = false ∧
          (∀ j, j < k → running this (poll_world j w1) = true) ∧
          w' = yield (poll_world k w1) ∧
          kill_count w' = kill_count w ∧
          sleep_count w' = k + sleep_count w) ∧
  ((∀ j, j < polls → running this (poll_world j w1) = true) →
     stopThread polls this t w = None).
Proof.
  intros Ht Hr w1. split.
  - intros w' Hs.
    destruct (stopThread_shape polls this t w w' Hr Hs) as (k & _ & Hw & Hw').
    destruct Hw as [b Hw]; [lia|]. fold w1 in Hw, Hw'.
    unfold waitForThreadToExit in Hw.
    destruct (wait_loop_unbounded polls this t _ w1 b _ ltac:(lia) Hw)
      as (-> & k' & Hk' & Hsame & Hend & Hbefore).
    assert (k = k') as ->.
    { apply (f_equal sleep_count) in Hsame.
      rewrite !sleep_count_poll_world in Hsame. lia. }
    destruct (stopThread_measures this w w' k' Hw') as (Hsl & Hk & _).
    fold w1 in Hk.
    assert (Hr2 : running this (yield (poll_world k' w1)) = false).
    { eapply running_stays_false; [apply objects_yield|done]. }
    rewrite Hr2 in Hw', Hk.
    exists k'. done.
  - intros Hall. unfold stopThread, stopThread_signal_and_wait. rewrite Hr.
    fold w1. case_decide as Hz; [|lia].
    destruct (waitForThreadToExit polls this t w1) as [[b w2]|] eqn:Hw; [|done].
    unfold waitForThreadToExit in Hw.
    destruct (wait_loop_unbounded polls this t _ w1 b _ ltac:(lia) Hw)
      as (_ & k & Hk & -> & Hend & _).
    rewrite (Hall k Hk) in Hend. done.
Qed.

(** X14. With a positive timeout [stopThread] terminates the thread by force
    only when the time is up: the wait has made all its [t / 5] sleeps, each
    of its polls has found the handle set, and so has the test that follows
    the wait.  A poll that finds the handle null rules the forced termination
    out. *)
Theorem stopThread_kills_only_after_the_timeout polls this t w w' :
  (0 < t)%Z → running this w = true →
  stopThread polls this t w = Some w' →
  let w1 := exec (signalThreadShouldExit this ;; notify this) w in
  ∃ k, k ≤ Z.to_nat (Z.quot t 5) ∧
       sleep_count w' = k + sleep_count w ∧
       (∀ j, j < k → running this (poll_world j w1) = true) ∧
       (kill_count w' = kill_count w ∨ kill_count w' = S (kill_count w)) ∧
       (kill_count w' = S (kill_count w) →
          k = Z.to_nat (Z.quot t 5) ∧
          running this (poll_world k w1) = true ∧
          running this (yield (poll_world k w1)) = true) ∧
       (running this (poll_world k w1) = false →
          w' = yield (poll_world k w1) ∧ kill_count w' = kill_count w).
Proof.
  intros Ht Hr Hs w1.
  destruct (stopThread_shape polls this t w w' Hr Hs) as (k & _ & Hw & Hw').
  destruct Hw as [b Hw]; [lia|]. fold w1 in Hw, Hw'.
  unfold waitForThreadToExit, sleepMsPerIteration in Hw.
  assert (0 ≤ Z.quot t 5)%Z as Hq by (apply Z.quot_pos; lia).
  destruct (wait_loop_positive polls this t _ w1 b _ Ht Hq Hw)
    as (k' & Hk' & Hsame & Hbefore & Hend & Hfalse).
  assert (k = k') as ->.
  { apply (f_equal sleep_count) in Hsame.
    rewrite !sleep_count_poll_world in Hsame. lia. }
  destruct (stopThread_measures this w w' k' Hw') as (Hsl & Hk & _).
  fold w1 in Hk.
  assert (Hstay : running this (poll_world k' w1) = false →
                  running this (yield (poll_world k' w1)) = false).
  { eapply running_stays_false, objects_yield. }
  exists k'. split; [done|]. split; [done|]. split; [done|].
  destruct (running this (yield (poll_world k' w1))) eqn:Hr2.
  - split; [by right|]. split.
    + intros _.
      destruct (running this (poll_world k' w1)) eqn:Hr1.
      * destruct b; [done|]. split; [by apply Hfalse|done].
      * by specialize (Hstay eq_refl).
    + intros Hr1. by specialize (Hstay Hr1).
  - split; [by left|]. split; [lia|]. done.
Qed.

(** X15. When [stopThread] has returned from a thread that was running, the
    request to exit is still there: [threadShouldExit()] answers [true] and
    the event of [notify()] is signalled.  Apart from these two writes to its
    own object, nothing in any [Thread] has changed during the call but
    thread ids and handles that became null. *)
Theorem stopThread_leaves_the_exit_request_set polls this t w w' :
  running this w = true → stopThread polls this t w = Some w' →
  threadShouldExit_ (deref this w') = true ∧
  signalled (defaultEvent_ (deref this w')) = true ∧
  threadName_ (deref this w') = threadName_ (deref this w) ∧
  threadPriority_ (deref this w') = threadPriority_ (deref this w) ∧
  affinityMask_ (deref this w') = affinityMask_ (deref this w) ∧
  startSuspensionEvent_ (deref this w') = startSuspensionEvent_ (deref this w) ∧
  (∀ t', t' ≠ this → only_id_and_handle_reset (deref t' w) (deref t' w')).
Proof.
  intros Hr Hs.
  destruct (stopThread_shape polls this t w w' Hr Hs) as (k & _ & _ & Hw').
  destruct (stopThread_measures this w w' k Hw') as (_ & _ & Ho).
  rewrite signalled_world in Ho.
  destruct (Ho this) as (Hn & Hp & Hm & Hf & Hg & He & _).
  rewrite !deref_update_eq in Hn, Hp, Hm, Hf, Hg, He. simpl in *.
  split; [done|]. split; [by rewrite He|].
  split; [done|]. split; [done|]. split; [done|]. split; [done|].
  intros t' Hne. specialize (Ho t').
  by rewrite !deref_update_ne in Ho by done.
Qed.

End MoreStopping.

(** *** What stopping all threads costs and what it leaves behind *)

Section MoreStoppingAll.
Context `{Platform}.
Local Open Scope juce_scope.

Lemma stop_writes_refl T : only_stop_writes T T.
Proof. by repeat split. Qed.

Lemma stop_writes_trans T1 T2 T3 :
  only_stop_writes T1 T2 → only_stop_writes T2 T3 → only_stop_writes T1 T3.
Proof.
  intros (?&?&?&?&?&?) (?&?&?&?&?&?). repeat split; try congruence; auto.
Qed.

Lemma stop_writes_of_reset T T' :
  only_id_and_handle_reset T T' → only_stop_writes T T'.
Proof. intros (?&?&?&?&?&?&_). repeat split; try done; congruence. Qed.

Lemma stop_writes_signalled this w t :
  only_stop_writes (deref t w)
    (deref t (exec (signalThreadShouldExit this ;; notify this) w)).
Proof.
  rewrite signalled_world, !deref_update.
  case_decide; [|apply stop_writes_refl]. by repeat split.
Qed.

Lemma stopThread_stop_writes polls this t w w' th :
  stopThread polls this t w = Some w' →
  only_stop_writes (deref th w) (deref th w').
Proof.
  intros Hs. destruct (running this w) eqn:Hr.
  - destruct (stopThread_shape polls this t w w' Hr Hs) as (k & _ & _ & Hw').
    destruct (stopThread_measures this w w' k Hw') as (_ & _ & Ho).
    eapply stop_writes_trans; [apply stop_writes_signalled|].
    apply stop_writes_of_reset, Ho.
  - unfold stopThread in Hs. rewrite Hr in Hs. injection Hs as <-.
    apply stop_writes_refl.
Qed.

Lemma stopThread_cost polls this t w w' :
  (0 ≤ t)%Z → stopThread polls this t w = Some w' →
  sleep_count w' ≤ sleep_count w + Z.to_nat (Z.quot t 5) ∧
  kill_count w' ≤ S (kill_count w).
Proof.
  intros Ht Hs. destruct (running this w) eqn:Hr.
  - destruct (stopThread_shape polls this t w w' Hr Hs) as (k & Hk0 & Hw & Hw').
    destruct (stopThread_measures this w w' k Hw') as (Hsl & Hk & _).
    split.
    + destruct (decide (t = 0%Z)) as [Hz|Hnz].
      * rewrite (Hk0 Hz) in Hsl. lia.
      * destruct (Hw Hnz) as [b Hb].
        unfold waitForThreadToExit, sleepMsPerIteration in Hb.
        assert (0 ≤ Z.quot t 5)%Z as Hq by (apply Z.quot_pos; lia).
        destruct (wait_loop_positive polls this t _ _ b _ ltac:(lia) Hq Hb)
          as (k' & Hk' & Hsame & _).
        apply (f_equal sleep_count) in Hsame.
        rewrite !sleep_count_poll_world in Hsame. lia.
    + rewrite Hk. destruct (running this (yield _)); lia.
  - unfold stopThread in Hs. rewrite Hr in Hs. injection Hs as <-. lia.
Qed.

Lemma head_measures w :
  let w1 := log EvUnlock (log (EvRegistryRead 0) (log EvLock w)) in
  sleep_count w1 = sleep_count w ∧ kill_count w1 = kill_count w ∧
  (∀ th, deref th w1 = deref th w).
Proof.
  simpl. unfold sleep_count, kill_count. wsimpl.
  rewrite !filter_app, !length_app. simpl. split; [lia|]. split; [lia|done].
Qed.

Lemma stopAllThreads_loop_cost rounds polls t w w' :
  (0 ≤ t)%Z → stopAllThreads_loop rounds polls t w = Some w' →
  sleep_count w' ≤ sleep_count w + pred rounds * Z.to_nat (Z.quot t 5) ∧
  kill_count w' ≤ kill_count w + pred rounds.
Proof.
  intros Ht. revert w. induction rounds as [|rounds IH]; intros w; [done|].
  cbn [stopAllThreads_loop]. rewrite stopAllThreads_head_exec.
  set (wy := yield w). set (t0 := VoidArray_index (runningThreads wy) 0).
  destruct (head_measures wy) as (Hs1 & Hk1 & _).
  set (w1 := log EvUnlock (log (EvRegistryRead 0) (log EvLock wy))) in *.
  assert (Hsy : sleep_count wy = sleep_count w) by apply sleep_count_yield.
  assert (Hky : kill_count wy = kill_count w) by apply kill_count_yield.
  case_decide as Hnull.
  - intros [= <-]. lia.
  - destruct (stopThread polls t0 t (yield w1)) as [w2|] eqn:Hs; [|done].
    destruct (stopThread_cost _ _ _ _ _ Ht Hs) as [Hs2 Hk2].
    rewrite sleep_count_yield in Hs2. rewrite kill_count_yield in Hk2.
    intros Hloop. destruct rounds as [|rounds]; [done|].
    destruct (IH w2 Hloop) as [Hs3 Hk3]. simpl in *. lia.
Qed.

Lemma stopAllThreads_loop_stop_writes rounds polls t w w' th :
  stopAllThreads_loop rounds polls t w = Some w' →
  only_stop_writes (deref th w) (deref th w').
Proof.
  revert w. induction rounds as [|rounds IH]; intros w; [done|].
  cbn [stopAllThreads_loop]. rewrite stopAllThreads_head_exec.
  set (wy := yield w). set (t0 := VoidArray_index (runningThreads wy) 0).
  destruct (head_measures wy) as (_ & _ & Hd).
  set (w1 := log EvUnlock (log (EvRegistryRead 0) (log EvLock wy))) in *.
  assert (Hy : only_stop_writes (deref th w) (deref th w1)).
  { rewrite Hd. apply stop_writes_of_reset, objects_yield. }
  case_decide as Hnull.
  - by intros [= <-].
  - destruct (stopThread polls t0 t (yield w1)) as [w2|] eqn:Hs; [|done].
    intros Hloop.
    eapply stop_writes_trans; [apply Hy|].
    eapply stop_writes_trans; [apply stop_writes_of_reset, objects_yield|].
    eapply stop_writes_trans; [by eapply stopThread_stop_writes|].
    by apply IH.
Qed.

Lemma stopAllThreads_signal_writes i w th :
  only_stop_writes (deref th w) (deref th (exec (stopAllThreads_signal i) w)).
Proof.
  revert w. induction i as [|i IH]; intros w; [apply stop_writes_refl|].
  set (t0 := VoidArray_index (runningThreads w) i).
  set (w1 := update t0 (set_threadShouldExit_ true) w).
  assert (Hstep : stopAllThreads_signal (S i) w = stopAllThreads_signal i w1)
    by reflexivity.
  unfold exec. rewrite Hstep.
  eapply stop_writes_trans; [|apply IH].
  unfold w1. rewrite deref_update.
  case_decide; [|apply stop_writes_refl]. by repeat split.
Qed.

Lemma stopAllThreads_signalAll_writes w th :
  only_stop_writes (deref th w) (deref th (exec stopAllThreads_signalAll w)).
Proof.
  set (n := length (runningThreads w)).
  assert (Hw' : exec stopAllThreads_signalAll w
                = log EvUnlock (exec (stopAllThreads_signal n) (log EvLock w))).
  { unfold stopAllThreads_signalAll, ScopedLock_runningThreadsLock,
      exec, bind, modify, gets, ret. simpl. fold n.
    destruct (stopAllThreads_signal_spec n (log EvLock w)) as (Hres & _).
    unfold result in Hres.
    destruct (stopAllThreads_signal n (log EvLock w)) as [[[]|] w2]; simpl in *;
      done. }
  rewrite Hw', deref_log, <- (deref_log th EvLock w).
  apply stopAllThreads_signal_writes.
Qed.


(** X17. When [stopAllThreads] has returned, every thread that was in the
    registry when it was called still has its exit flag set, and the call has
    changed no name, no priority, no affinity mask and no start gate of any
    [Thread]; no exit flag that was set has been cleared. *)
Theorem stopAllThreads_leaves_the_exit_requests_set rounds polls t w w' :
  stopAllThreads rounds polls t w = Some w' →
  (∀ th, th ∈ runningThreads w → threadShouldExit_ (deref th w') = true) ∧
  (∀ th, only_stop_writes (deref th w) (deref th w')).
Proof.
  unfold stopAllThreads. intros Hs.
  destruct (stopAllThreads_signalAll_spec w) as (_ & _ & _ & _ & _ & Hset).
  set (w0 := exec stopAllThreads_signalAll w) in *.
  assert (Hloop : ∀ th, only_stop_writes (deref th w0) (deref th w')).
  { intros th. by eapply stopAllThreads_loop_stop_writes. }
  split.
  - intros th Hin. destruct (Hloop th) as (_&_&_&_&Hf&_). by apply Hf, Hset.
  - intros th. eapply stop_writes_trans; [|apply Hloop].
    apply stopAllThreads_signalAll_writes.
Qed.

End MoreStoppingAll.

(** *** Starting, running to the end, and starting again *)

Section MoreRoundTrip.
Context `{Platform}.
Local Open Scope juce_scope.

Lemma startThread_created this w :
  running this w = false →
  let h := createThread_answer (update this (set_threadShouldExit_ false) w) this in
  h ≠ 0%Z →
  let w1 := exec (startThread this) w in
  natives w1 = <[h := mkNative this pcEntry true]> (natives w) ∧
  runningThreads w1 = runningThreads w ∧
  threadHandle_ (deref this w1) = h ∧
  signalled (startSuspensionEvent_ (deref this w1)) = true ∧
  threadId_ (deref this w1) = threadId_ (deref this w) ∧
  (∃ worked, trace w1 = trace w ++
     [EvCreateThread this h;
      EvSetThreadPriority h (threadPriority_ (deref this w)) worked]).
Proof.
  intros Hr h Hh w1. subst w1. rewrite startThread_idle_exec by done.
  cbv zeta. fold h. destruct (decide (h = 0%Z)) as [E|E]; [done|].
  split; [by wsimpl|]. split; [by wsimpl|]. split; [by wsimpl|].
  split; [by wsimpl|]. split; [by wsimpl|].
  eexists. wsimpl. by rewrite <- !app_assoc.
Qed.


Lemma exec_register t w :
  exec (tep_register t) w
  = log EvUnlock (set_runningThreads (VoidArray_add t)
                    (log (EvRegistryAdd t) (log EvLock w))).
Proof. reflexivity. Qed.

Lemma exec_captureId me t w :
  exec (tep_captureId me t) w
  = update t (set_threadId_ (threadId_of me))
      (log (EvGetCurrentThreadId (threadId_of me)) w).
Proof. reflexivity. Qed.

Lemma quiet_setName t w :
  heap (exec (tep_setName t) w) = heap w ∧
  runningThreads (exec (tep_setName t) w) = runningThreads w ∧
  natives (exec (tep_setName t) w) = natives w.
Proof.
  unfold exec, tep_setName, bind, gets, when. simpl.
  by destruct (isNotEmpty _).
Qed.

Lemma quiet_gate t w :
  heap (exec (tep_gate t) w) = heap w ∧
  runningThreads (exec (tep_gate t) w) = runningThreads w ∧
  natives (exec (tep_gate t) w) = natives w.
Proof. done. Qed.

Lemma quiet_affinity t w :
  heap (exec (tep_affinity t) w) = heap w ∧
  runningThreads (exec (tep_affinity t) w) = runningThreads w ∧
  natives (exec (tep_affinity t) w) = natives w.
Proof.
  unfold exec, tep_affinity, bind, gets, when. simpl.
  by destruct (negb _).
Qed.

Lemma deref_heap t w w' : heap w' = heap w → deref t w' = deref t w.
Proof. intros E. unfold deref. by rewrite E. Qed.

Lemma natives_goto_ne me h thread p w n :
  h ≠ me → natives w !! me = Some n →
  natives (goto h thread p w) !! me = Some n.
Proof. intros Hne Hn. unfold goto. simpl. by rewrite lookup_insert_ne. Qed.

(** X19. The trampoline sets the handle to null one statement before it
    sets the thread id to zero, and [startThread()] can come in between.  Then
    the [Thread] is started again, its new native thread registers, stores
    its identifier and reaches [run()], and the old native thread, making its
    last move, overwrites that identifier with zero: the [Thread] is running,
    is in the registry, and [getThreadId()] answers zero; so
    [getCurrentThread()], called on the new native thread, does not answer
    this [Thread]. *)
Theorem late_id_reset_hits_the_restarted_thread this h1 o w :
  this ≠ null →
  natives w !! h1 = Some (mkNative this pcResetId true) →
  running this w = false → (this ∉ runningThreads w) →
  let h2 := createThread_answer (update this (set_threadShouldExit_ false) w) this in
  h2 ≠ 0%Z → h2 ≠ h1 → threadId_of h2 ≠ 0%Z →
  let w1 := exec (startThread this) w in
  let w2 := foldl (λ w0 s, tramp_step s w0) w1 (replicate 5 (h2, o)) in
  let w3 := tramp_step (h1, o) w2 in
  result (getThreadId this) w2 = Normal (threadId_of h2) ∧
  natives w3 !! h2 = Some (mkNative this pcRun true) ∧
  natives w3 !! h1 = Some (mkNative this pcDone true) ∧
  running this w3 = true ∧
  this ∈ runningThreads w3 ∧
  result (getThreadId this) w3 = Normal 0%Z ∧
  result (getCurrentThread (threadId_of h2)) w3 ≠ Normal this.
Proof.
  intros Hnull Hold Hr Hout h2 Hh Hne Hid w1 w2 w3.
  destruct (startThread_created this w Hr Hh) as (Hn & Hreg & Hhd & Hg & _ & _).
  fold h2 w1 in Hn, Hreg, Hhd, Hg.
  assert (Hn1 : natives w1 !! h2 = Some (mkNative this pcEntry true)).
  { rewrite Hn. apply lookup_insert_eq. }
  assert (Hold1 : natives w1 !! h1 = Some (mkNative this pcResetId true)).
  { rewrite Hn. by rewrite lookup_insert_ne. }
  set (wr := exec (tep_register this) w1).
  set (wc := exec (tep_captureId h2 this) wr).
  set (wn := exec (tep_setName this) wc).
  set (wg := exec (tep_gate this) wn).
  set (wa := exec (tep_affinity this) wg).
  destruct (quiet_setName this wc) as (Hh3 & Hr3' & Hn3). fold wn in Hh3, Hr3', Hn3.
  destruct (quiet_gate this wn) as (Hh4 & Hr4 & Hn4). fold wg in Hh4, Hr4, Hn4.
  destruct (quiet_affinity this wg) as (Hh5 & Hr5 & Hn5). fold wa in Hh5, Hr5, Hn5.
  assert (Hdc : deref this wc = set_threadId_ (threadId_of h2) (deref this w1)).
  { unfold wc, wr. rewrite exec_captureId, exec_register.
    by rewrite deref_update_eq. }
  assert (Hgate : signalled (startSuspensionEvent_ (deref this wn)) = true).
  { by rewrite (deref_heap this wc wn Hh3), Hdc. }
  assert (Hw2 : w2 = goto h2 this pcRun wa).
  { unfold w2. rewrite <- (goto_id h2 this pcEntry w1 Hn1) at 1.
    cbn [replicate foldl]. do 4 rewrite tramp_step_goto. fold wr wc wn.
    rewrite Hgate. by rewrite tramp_step_goto. }
  assert (Hda : deref this wa = set_threadId_ (threadId_of h2) (deref this w1)).
  { rewrite <- Hdc. apply deref_heap. congruence. }
  assert (Hra : runningThreads wa = runningThreads w ++ [this]).
  { rewrite Hr5, Hr4, Hr3'. unfold wc, wr. rewrite exec_captureId, exec_register.
    wsimpl. by rewrite Hreg. }
  assert (Hna : natives wa = natives w1).
  { rewrite Hn5, Hn4, Hn3. unfold wc, wr. by rewrite exec_captureId, exec_register. }
  assert (Hw3 : w3 = goto h1 this pcDone
                       (update this (set_threadId_ 0) (goto h2 this pcRun wa))).
  { unfold w3. rewrite Hw2. unfold tramp_step.
    rewrite (natives_goto_ne h1 h2 this pcRun wa (mkNative this pcResetId true));
      [|done|by rewrite Hna].
    reflexivity. }
  assert (Hd3 : deref this w3
                = set_threadId_ 0 (set_threadId_ (threadId_of h2) (deref this w1))).
  { rewrite Hw3. unfold goto. by rewrite !deref_set_natives, deref_update_eq,
      deref_set_natives, Hda. }
  assert (Hr3 : runningThreads w3 = runningThreads w ++ [this]).
  { rewrite Hw3. unfold goto.
    by rewrite registry_set_natives, registry_update, registry_set_natives. }
  assert (Hd2 : deref this w2 = set_threadId_ (threadId_of h2) (deref this w1)).
  { rewrite Hw2. unfold goto. by rewrite deref_set_natives. }
  assert (Hn3a : natives w3 !! h2 = Some (mkNative this pcRun true)).
  { rewrite Hw3. unfold goto.
    rewrite natives_set_natives, natives_update, natives_set_natives.
    rewrite lookup_insert_ne by done. apply lookup_insert_eq. }
  assert (Hn3b : natives w3 !! h1 = Some (mkNative this pcDone true)).
  { rewrite Hw3. apply natives_goto. }
  clearbody w3 w2 wa wg wn wc wr w1.
  split; [unfold result, getThreadId, gets; cbn [fst]; by rewrite Hd2|].
  split; [done|]. split; [done|].
  split.
  { unfold running. rewrite Hd3. cbn [set_threadId_ threadHandle_]. rewrite Hhd.
    by apply negb_true_iff, Z.eqb_neq. }
  split; [rewrite Hr3; apply elem_of_app; right; by left|].
  split; [unfold result, getThreadId, gets; cbn [fst]; by rewrite Hd3|].
  unfold result, getCurrentThread, ScopedLock_runningThreadsLock, bind, modify,
    gets, ret. cbn [fst].
  intros [= E].
  destruct (getCurrentThread_scan_spec _ (threadId_of h2) (log EvLock w3) _ E)
    as [(k & _ & _ & Hidk & _)|[Hnl _]]; [|done].
  rewrite deref_log, Hd3 in Hidk. cbn [set_threadId_ threadId_] in Hidk. congruence.
Qed.

End MoreRoundTrip.

(** *** The registry lock *)

Section MoreLocks.
Context `{Platform}.
Local Open Scope juce_scope.

Lemma lock_scan_app b (l1 l2 : list Event) :
  lock_scan b (l1 ++ l2) = lock_scan b l1 ≫= λ b', lock_scan b' l2.
Proof.
  revert b. induction l1 as [|e l1 IH]; intros b; [done|].
  destruct e, b; simpl; try done; apply IH.
Qed.

Lemma respecting_refl w : lock_respecting w w.
Proof. exists []. by rewrite app_nil_r. Qed.

Lemma respecting_trans w1 w2 w3 :
  lock_respecting w1 w2 → lock_respecting w2 w3 → lock_respecting w1 w3.
Proof.
  intros (es1 & Htr1 & Hs1) (es2 & Htr2 & Hs2). exists (es1 ++ es2).
  split; [by rewrite Htr2, Htr1, app_assoc|].
  rewrite lock_scan_app, Hs1. done.
Qed.

Lemma respecting_same w w' : trace w' = trace w → lock_respecting w w'.
Proof. intros Htr. exists []. by rewrite app_nil_r. Qed.

Lemma respecting_append w w' es :
  trace w' = trace w ++ es → lock_scan false es = Some false →
  lock_respecting w w'.
Proof. intros Htr Hs. by exists es. Qed.

Ltac respecting :=
  first [ by apply respecting_same
        | eapply respecting_append;
          [wsimpl; rewrite <- ?app_assoc; simpl; reflexivity | reflexivity] ].

Lemma respecting_tramp_step s w : lock_respecting w (tramp_step s w).
Proof.
  destruct s as [me o]. unfold tramp_step.
  destruct (natives w !! me) as [n|] eqn:Hn; [|apply respecting_refl].
  destruct (alive n) eqn:Ha; [|apply respecting_refl].
  destruct (pc n) eqn:Hpc; try apply respecting_refl; run_statement; respecting.
Qed.

Lemma respecting_foldl (steps : list EnvStep) w :
  lock_respecting w (foldl (λ w0 s, tramp_step s w0) w steps).
Proof.
  revert w. induction steps as [|s steps IH]; intros w; simpl.
  - apply respecting_refl.
  - eapply respecting_trans; [apply respecting_tramp_step|apply IH].
Qed.

Lemma respecting_yield w : lock_respecting w (yield w).
Proof.
  unfold yield. destruct (tape w) as [|steps rest]; [apply respecting_refl|].
  eapply respecting_trans; [|apply respecting_foldl]. by apply respecting_same.
Qed.

Lemma respecting_sleep ms w : lock_respecting w (sleep ms w).
Proof.
  unfold sleep. eapply respecting_trans; [|apply respecting_yield].
  by eapply respecting_append.
Qed.

Lemma respecting_poll_world k w : lock_respecting w (poll_world k w).
Proof.
  revert w. induction k as [|k IH]; intros w; simpl; [apply respecting_refl|].
  eapply respecting_trans; [apply respecting_sleep|apply IH].
Qed.

Lemma respecting_kill this w : lock_respecting w (exec (stopThread_kill this) w).
Proof. rewrite stopThread_kill_exec. respecting. Qed.

Lemma respecting_stopThread polls this t w w' :
  stopThread polls this t w = Some w' → lock_respecting w w'.
Proof.
  intros Hs. destruct (running this w) eqn:Hr.
  - destruct (stopThread_shape polls this t w w' Hr Hs) as (k & _ & _ & ->).
    rewrite signalled_world.
    set (w1 := update this signal_defaultEvent_ _).
    assert (H2 : lock_respecting w (yield (poll_world k w1))).
    { eapply respecting_trans; [|apply respecting_yield].
      eapply respecting_trans; [|apply respecting_poll_world].
      by apply respecting_same. }
    destruct (running this (yield (poll_world k w1))); [|done].
    eapply respecting_trans; [apply H2|apply respecting_kill].
  - unfold stopThread in Hs. rewrite Hr in Hs. injection Hs as <-.
    apply respecting_refl.
Qed.

Lemma respecting_loop rounds polls t w w' :
  stopAllThreads_loop rounds polls t w = Some w' → lock_respecting w w'.
Proof.
  revert w. induction rounds as [|rounds IH]; intros w; [done|].
  cbn [stopAllThreads_loop]. rewrite stopAllThreads_head_exec.
  set (wy := yield w). set (t0 := VoidArray_index (runningThreads wy) 0).
  set (w1 := log EvUnlock (log (EvRegistryRead 0) (log EvLock wy))).
  assert (H1 : lock_respecting w w1).
  { eapply respecting_trans; [apply respecting_yield|]. fold wy.
    unfold w1. respecting. }
  case_decide as Hnull.
  - by intros [= <-].
  - destruct (stopThread polls t0 t (yield w1)) as [w2|] eqn:Hs; [|done].
    intros Hloop.
    eapply respecting_trans; [apply H1|].
    eapply respecting_trans; [apply respecting_yield|].
    eapply respecting_trans; [by eapply respecting_stopThread|].
    by apply IH.
Qed.

Lemma respecting_stopAllThreads rounds polls t w w' :
  stopAllThreads rounds polls t w = Some w' → lock_respecting w w'.
Proof.
  unfold stopAllThreads. intros Hs.
  eapply respecting_trans; [|by eapply respecting_loop].
  destruct (stopAllThreads_signalAll_spec w) as (Htr & _).
  by eapply respecting_append.
Qed.

Lemma respecting_setPriority this priority w :
  lock_respecting w (exec (setPriority this priority) w).
Proof.
  unfold exec. rewrite setPriority_exec. cbn [snd].
  destruct (setThreadPriority_answer _ _ _); respecting.
Qed.

Lemma respecting_startThread this w :
  lock_respecting w (exec (startThread this) w).
Proof.
  destruct (running this w) eqn:Hr.
  - rewrite startThread_running_exec by done. by apply respecting_same.
  - rewrite startThread_idle_exec by done. cbv zeta.
    destruct (decide _); respecting.
Qed.

Lemma respecting_startThread_priority this priority w :
  lock_respecting w (exec (startThread_priority this priority) w).
Proof.
  destruct (running this w) eqn:Hr.
  - rewrite startThread_priority_running by done. apply respecting_setPriority.
  - rewrite startThread_priority_idle by done.
    eapply respecting_trans; [|apply respecting_startThread].
    by apply respecting_same.
Qed.

Lemma locks_ok_step w w' : lock_respecting w w' → locks_ok w → locks_ok w'.
Proof.
  intros (es & Htr & Hs) Hok. unfold locks_ok in *.
  by rewrite Htr, lock_scan_app, Hok.
Qed.


End MoreLocks.

(** ** Worked examples *)

Section Demo.
Local Existing Instance demo_platform.
Local Open Scope juce_scope.

Lemma foldr_max_bound (l : list Z) x : x ∈ l → (x ≤ foldr Z.max 0 l)%Z.
Proof.
  induction l as [|y l IH]; simpl; [by intros ?%elem_of_nil|].
  intros [->|Hin]%elem_of_cons; [lia|]. specialize (IH Hin). lia.
Qed.

Lemma demo_handles_fresh : handles_fresh.
Proof.
  intros w userData _. simpl. apply not_elem_of_dom. intros Hin.
  apply elem_of_elements, foldr_max_bound in Hin. unfold next_handle in Hin. lia.
Qed.

Lemma reachable_foldl (steps : list EnvStep) w :
  reachable w → reachable (foldl (λ w' s, tramp_step s w') w steps).
Proof.
  revert w. induction steps as [|s steps IH]; simpl; [done|].
  intros w Hw. by apply IH, reach_native.
Qed.

Lemma demo_idle_reachable : reachable demo_idle.
Proof. apply reach_construct; [apply reach_init|done|done]. Qed.

Lemma demo_started_reachable : reachable demo_started.
Proof.
  apply reach_startThread; [apply demo_idle_reachable|done|].
  by eexists.
Qed.

Lemma demo_in_run_reachable : reachable demo_in_run.
Proof. apply reachable_foldl, demo_started_reachable. Qed.

Lemma demo_two_in_run_reachable : reachable demo_two_in_run.
Proof.
  apply reachable_foldl, reach_startThread; [|done|by eexists].
  apply reach_construct; [apply demo_in_run_reachable|done|].
  by vm_compute.
Qed.

Lemma demo_scheduled_Inv tp : Inv (set_tape tp demo_in_run).
Proof.
  apply reachable_Inv; [apply demo_handles_fresh|].
  apply reach_schedule, demo_in_run_reachable.
Qed.






(** C3, on the worker while it is in [run()]. *)
Lemma startThread_running_is_noop_witness :
  running 1 demo_in_run = true ∧
  threadHandle_ (deref 1 (exec (startThread 1) demo_in_run)) = 1%Z ∧
  threadId_ (deref 1 (exec (startThread 1) demo_in_run)) = 101%Z ∧
  natives (exec (startThread 1) demo_in_run) = natives demo_in_run.
Proof.
  assert (Hr : running 1 demo_in_run = true) by reflexivity.
  split; [done|].
  destruct (startThread_running_is_noop 1 demo_in_run Hr)
    as (Hh & Hid & Hn & _).
  split; [by rewrite Hh|]. split; [by rewrite Hid|]. done.
Defined.

(** C4, counterexample. On the idle worker, [startThread (8)] stores 8 and
    starts the native thread with priority 8. [setPriority (8)] followed by
    [startThread()] first asks the platform to set the priority of the null
    handle, which is the calling thread; the platform refuses, the stored
    priority stays 5, and the native thread is started with priority 5. *)
Lemma startThread_priority_is_not_setPriority_then_startThread :
  running 1 demo_idle = false ∧
  threadPriority_ (deref 1 (exec (startThread_priority 1 8) demo_idle)) = 8%Z ∧
  threadPriority_
    (deref 1 (exec (_ <- setPriority 1 8 ;; startThread 1) demo_idle)) = 5%Z ∧
  trace (exec (startThread_priority 1 8) demo_idle)
    = [EvCreateThread 1 1; EvSetThreadPriority 1 8 true] ∧
  trace (exec (_ <- setPriority 1 8 ;; startThread 1) demo_idle)
    = [EvSetThreadPriority 0 8 false; EvCreateThread 1 1;
       EvSetThreadPriority 1 5 true] ∧
  exec (startThread_priority 1 8) demo_idle
    ≠ exec (_ <- setPriority 1 8 ;; startThread 1) demo_idle.
Proof.
  split; [done|]. split; [done|]. split; [done|]. split; [done|].
  split; [done|]. intros E. apply (f_equal trace) in E. by vm_compute in E.
Qed.

(** C4, on the worker: idle, and in [run()]. *)
Lemma startThread_priority_cases_witness :
  threadPriority_ (deref 1 (exec (startThread_priority 1 8) demo_idle)) = 8%Z ∧
  exec (startThread_priority 1 8) demo_in_run = exec (setPriority 1 8) demo_in_run ∧
  threadHandle_ (deref 1 (exec (startThread_priority 1 8) demo_in_run)) = 1%Z.
Proof.
  destruct (startThread_priority_cases 1 8 demo_idle) as [_ Hidle].
  destruct (startThread_priority_cases 1 8 demo_in_run) as [Hrun _].
  destruct Hidle as (_ & Hp & _); [done|].
  destruct Hrun as (He & Hh & _); [done|].
  split; [done|]. split; [done|]. by rewrite Hh.
Defined.

(** C6, on the worker when its [run()] throws. *)
Lemma threadEntryPoint_always_cleans_up_witness :
  (1 ∉ runningThreads demo_started) ∧
  result (tep_guarded_block 1 Throws 1) (exec (tep_register 1) demo_started)
    = Raised ∧
  result (threadEntryPoint 1 Throws 1) demo_started = Normal tt ∧
  runningThreads (exec (threadEntryPoint 1 Throws 1) demo_started) = [] ∧
  threadHandle_ (deref 1 (exec (threadEntryPoint 1 Throws 1) demo_started)) = 0%Z ∧
  threadId_ (deref 1 (exec (threadEntryPoint 1 Throws 1) demo_started)) = 0%Z.
Proof.
  assert (Hn : 1 ∉ runningThreads demo_started).
  { vm_compute. apply not_elem_of_nil. }
  split; [done|]. split; [done|].
  destruct (threadEntryPoint_always_cleans_up 1 Throws 1 demo_started Hn)
    as (Hres & _ & _ & Hreg & Hh & Hid & _).
  split; [done|]. split; [by rewrite Hreg|]. done.
Defined.

(** C7, counterexample. With a timeout of 0 ms the worker is still running
    at the first poll, and at the polls 5 and 10 ms later; it leaves [run()]
    during the third sleep, and the call answers [true] after 15 ms. *)
Lemma waitForThreadToExit_zero_timeout_keeps_waiting :
  let w := set_tape [[]; []; demo_exit] demo_in_run in
  running 1 w = true ∧
  running 1 (poll_world 1 w) = true ∧
  running 1 (poll_world 2 w) = true ∧
  running 1 (poll_world 3 w) = false ∧
  waitForThreadToExit 10 1 0 w = Some (true, poll_world 3 w) ∧
  filter (λ e, isKill e = false) (drop (length (trace w)) (trace (poll_world 3 w)))
    = [EvSleep 5; EvSleep 5; EvSleep 5; EvRun 1;
       EvLock; EvRegistryRemove 1; EvUnlock].
Proof. by vm_compute. Qed.

(** C7, on the worker that never leaves [run()], with 100 ms and with -1. *)
Lemma waitForThreadToExit_spec_witness :
  let w := set_tape [] demo_in_run in
  (0 < 100)%Z ∧ (Z.quot 100 5 < Z.of_nat 30)%Z ∧ (-1 ≤ 0)%Z ∧
  (∃ b k, waitForThreadToExit 30 1 100 w = Some (b, poll_world k w) ∧
          k ≤ 20 ∧ running 1 (poll_world k w) = negb b) ∧
  (∀ b w', waitForThreadToExit 30 1 (-1) w = Some (b, w') →
           b = true ∧ running 1 w' = false).
Proof.
  intros w.
  assert (H1 : (0 < 100)%Z) by reflexivity.
  assert (H2 : (Z.quot 100 5 < Z.of_nat 30)%Z) by reflexivity.
  assert (H3 : (-1 ≤ 0)%Z) by (intros E; discriminate E).
  destruct (waitForThreadToExit_spec 30 1 100 w) as [Hpos _].
  destruct (waitForThreadToExit_spec 30 1 (-1) w) as [_ Hneg].
  destruct (Hpos H1 H2) as (b & k & Hw & Hk & _ & Hend & _).
  destruct (Hneg H3) as [Hnever _].
  split; [exact H1|]. split; [exact H2|]. split; [exact H3|].
  split; [|exact Hnever].
  exists b, k. split; [exact Hw|]. split; [exact Hk|exact Hend].
Defined.


(** C10, on the worker while it is in [run()]. *)
Lemma startThread_clears_exit_request_witness :
  running 1 demo_in_run = true ∧
  threadShouldExit_ (deref 1 (exec (signalThreadShouldExit 1) demo_in_run)) = true ∧
  threadShouldExit_
    (deref 1 (exec (startThread 1) (exec (signalThreadShouldExit 1) demo_in_run)))
    = false ∧
  running 1 (exec (startThread 1) (exec (signalThreadShouldExit 1) demo_in_run))
    = true.
Proof.
  assert (Hr : running 1 demo_in_run = true) by reflexivity.
  split; [exact Hr|].
  destruct (startThread_clears_exit_request 1 demo_in_run Hr)
    as (H1 & H2 & H3 & _).
  exact (conj H1 (conj H2 H3)).
Defined.

End Demo.

(** ** Further worked examples *)

Section MoreDemo.
Local Existing Instance demo_platform.
Local Open Scope juce_scope.

(** The worker has left [run()], deregistered and set its handle to null;
    the reset of the thread id is its next move. *)
Lemma demo_exited_reachable :
  reachable (foldl (λ w s, tramp_step s w) demo_in_run demo_exit).
Proof. apply reachable_foldl, demo_in_run_reachable. Qed.

Lemma demo_two_scheduled_Inv tp : Inv (set_tape tp demo_two_in_run).
Proof.
  apply reachable_Inv; [apply demo_handles_fresh|].
  apply reach_schedule, demo_two_in_run_reachable.
Qed.

(** X2, on the idle worker: with the platform that makes threads, and with
    the one that has run out of them. *)
Lemma startThread_idle_outcome_witness :
  running 1 demo_idle = false ∧
  threadHandle_ (deref 1 (exec (startThread 1) demo_idle)) = 1%Z ∧
  running 1 (exec (startThread 1) demo_idle) = true ∧
  threadHandle_ (deref 1 (exec (startThread (H := demo_exhausted) 1) demo_idle))
    = 0%Z ∧
  signalled (startSuspensionEvent_
               (deref 1 (exec (startThread (H := demo_exhausted) 1) demo_idle)))
    = true.
Proof.
  assert (Hr : running 1 demo_idle = false) by reflexivity.
  destruct (startThread_idle_outcome 1 demo_idle Hr) as (Hh & Hrun & _).
  destruct (startThread_idle_outcome (H := demo_exhausted) 1 demo_idle Hr)
    as (Hh0 & _ & _ & _ & Hg & _).
  split; [exact Hr|]. split; [exact Hh|].
  split; [apply Hrun; vm_compute; discriminate|].
  split; [exact Hh0|exact Hg].
Defined.

(** X3, on the idle worker. *)
Lemma setPriority_idle_is_setCurrentThreadPriority_witness :
  running 1 demo_idle = false ∧
  result (setPriority 1 8) demo_idle
    = result (setCurrentThreadPriority 8) demo_idle ∧
  trace (exec (setPriority 1 8) demo_idle) = [EvSetThreadPriority 0 8 false].
Proof.
  assert (Hr : running 1 demo_idle = false) by reflexivity.
  destruct (setPriority_idle_is_setCurrentThreadPriority 1 8 demo_idle Hr)
    as (Hres & Htr1 & Htr2 & _).
  split; [exact Hr|]. split; [exact Hres|].
  exact (eq_trans Htr1 Htr2).
Defined.



(** X7, on the two threads in [run()]. *)
Lemma registry_has_no_duplicates_and_no_null_witness :
  handles_fresh ∧ reachable demo_two_in_run ∧
  runningThreads demo_two_in_run = [1; 2] ∧
  NoDup (runningThreads demo_two_in_run) ∧
  (1 ∉ VoidArray_removeValue 1 (runningThreads demo_two_in_run)).
Proof.
  pose proof demo_handles_fresh as Hf.
  pose proof demo_two_in_run_reachable as Hr.
  destruct (registry_has_no_duplicates_and_no_null demo_two_in_run Hf Hr)
    as (Hnd & _ & Hgone & _).
  split; [exact Hf|]. split; [exact Hr|].
  split; [vm_compute; reflexivity|]. split; [exact Hnd|exact (Hgone 1)].
Defined.

(** X9, on the worker that has just been started and whose [run()] throws. *)
Lemma trampoline_finishes_witness :
  let w_end := foldl (λ w s, tramp_step s w) demo_started
                     ((λ o, (1%Z, o)) <$> replicate 10 Throws) in
  Inv demo_started ∧
  natives demo_started !! 1%Z = Some (mkNative 1 pcEntry true) ∧
  natives w_end !! 1%Z = Some (mkNative 1 pcDone true) ∧
  threadHandle_ (deref 1 w_end) = 0%Z ∧
  threadId_ (deref 1 w_end) = 0%Z ∧
  (1 ∉ runningThreads w_end).
Proof.
  intros w_end.
  assert (I : Inv demo_started).
  { apply reachable_Inv; [apply demo_handles_fresh|apply demo_started_reachable]. }
  assert (Hn : natives demo_started !! 1%Z = Some (mkNative 1 pcEntry true))
    by (vm_compute; reflexivity).
  destruct (trampoline_finishes demo_started 1 (mkNative 1 pcEntry true)
              (replicate 10 Throws) I Hn eq_refl eq_refl eq_refl)
    as (Hdone & Hh & Hid & Hreg & _).
  split; [exact I|]. split; [exact Hn|]. split; [exact Hdone|].
  split; [exact Hh|]. split; [exact Hid|exact Hreg].
Defined.

(** X10, on the worker that leaves [run()] during the third sleep of a wait
    without timeout. *)
Lemma waitForThreadToExit_only_polls_and_sleeps_witness :
  let w := set_tape [[]; []; demo_exit] demo_in_run in
  waitForThreadToExit 10 1 0 w = Some (true, poll_world 3 w) ∧
  true = negb (running 1 (poll_world 3 w)) ∧
  ∃ k, k < 10 ∧ sleep_count (poll_world 3 w) = k + sleep_count w ∧
       kill_count (poll_world 3 w) = kill_count w.
Proof.
  intros w.
  assert (Hw : waitForThreadToExit 10 1 0 w = Some (true, poll_world 3 w))
    by (vm_compute; reflexivity).
  destruct (waitForThreadToExit_only_polls_and_sleeps 10 1 0 w true
              (poll_world 3 w) Hw) as (Hb & k & Hk & _ & Hs & Hkill & _).
  split; [exact Hw|]. split; [exact Hb|].
  exists k. split; [exact Hk|]. split; [exact Hs|exact Hkill].
Defined.



(** X13, on the worker: it leaves [run()] during the second sleep and the
    call returns without a forced termination; it never leaves [run()] and
    the call uses up its ten polls. *)
Lemma stopThread_negative_timeout_never_kills_witness :
  let w := set_tape [[]; demo_exit] demo_in_run in
  let w_never := set_tape [] demo_in_run in
  (-1 < 0)%Z ∧ running 1 w = true ∧ running 1 w_never = true ∧
  (∀ w', stopThread 10 1 (-1) w = Some w' → kill_count w' = kill_count w) ∧
  stopThread 10 1 (-1) w_never = None.
Proof.
  intros w w_never.
  assert (Ht : (-1 < 0)%Z) by reflexivity.
  assert (Hr : running 1 w = true) by (vm_compute; reflexivity).
  assert (Hr' : running 1 w_never = true) by (vm_compute; reflexivity).
  destruct (stopThread_negative_timeout_never_kills 10 1 (-1) w Ht Hr)
    as [Hret _].
  destruct (stopThread_negative_timeout_never_kills 10 1 (-1) w_never Ht Hr')
    as [_ Hnever].
  split; [exact Ht|]. split; [exact Hr|]. split; [exact Hr'|].
  split.
  - intros w' Hw'. destruct (Hret w' Hw') as (k & _ & _ & _ & _ & Hk & _).
    exact Hk.
  - apply Hnever. intros j Hj.
    do 10 (destruct j as [|j]; [vm_compute; reflexivity|]). lia.
Defined.

(** X14, on the worker that never leaves [run()]: the forced termination
    comes after the twenty sleeps that 100 ms allow. *)
Lemma stopThread_kills_only_after_the_timeout_witness :
  let w := set_tape [] demo_in_run in
  (0 < 100)%Z ∧ running 1 w = true ∧
  ∃ w', stopThread 30 1 100 w = Some w' ∧
        kill_count w' = S (kill_count w) ∧
        sleep_count w' = 20 + sleep_count w.
Proof.
  intros w.
  assert (Ht : (0 < 100)%Z) by reflexivity.
  assert (Hr : running 1 w = true) by (vm_compute; reflexivity).
  destruct (stopThread_returns 30 1 100 w) as [w' Hw'];
    [discriminate|vm_compute; reflexivity|].
  destruct (stopThread_kills_only_after_the_timeout 30 1 100 w w' Ht Hr Hw')
    as (k & _ & Hs & _ & _ & Hkilled & _).
  assert (Hk : kill_count w' = S (kill_count w)).
  { revert Hw'. vm_compute. by intros [= <-]. }
  destruct (Hkilled Hk) as [Hk20 _].
  split; [exact Ht|]. split; [exact Hr|].
  exists w'. split; [exact Hw'|]. split; [exact Hk|].
  rewrite Hs, Hk20. reflexivity.
Defined.

(** X15, on the worker that leaves [run()] during the first sleep. *)
Lemma stopThread_leaves_the_exit_request_set_witness :
  let w := set_tape [demo_exit] demo_in_run in
  running 1 w = true ∧
  ∃ w', stopThread 30 1 100 w = Some w' ∧
        threadShouldExit_ (deref 1 w') = true ∧
        signalled (defaultEvent_ (deref 1 w')) = true ∧
        threadPriority_ (deref 1 w') = 5%Z.
Proof.
  intros w.
  assert (Hr : running 1 w = true) by (vm_compute; reflexivity).
  destruct (stopThread_returns 30 1 100 w) as [w' Hw'];
    [discriminate|vm_compute; reflexivity|].
  destruct (stopThread_leaves_the_exit_request_set 30 1 100 w w' Hr Hw')
    as (Hf & He & _ & Hp & _).
  split; [exact Hr|].
  exists w'. split; [exact Hw'|]. split; [exact Hf|]. split; [exact He|].
  rewrite Hp. vm_compute. reflexivity.
Defined.


(** X17, on the two threads. *)
Lemma stopAllThreads_leaves_the_exit_requests_set_witness :
  let w := set_tape [[]; demo_exit] demo_two_in_run in
  runningThreads w = [1; 2] ∧
  ∃ w', stopAllThreads 5 30 100 w = Some w' ∧
        threadShouldExit_ (deref 1 w') = true ∧
        threadShouldExit_ (deref 2 w') = true.
Proof.
  intros w.
  assert (Hreg : runningThreads w = [1; 2]) by (vm_compute; reflexivity).
  pose proof (demo_two_scheduled_Inv [[]; demo_exit] : Inv w) as I.
  destruct (stopAllThreads_loop_returns 5 30 100 (exec stopAllThreads_signalAll w))
    as [w' Hw']; [by apply Inv_signalAll|discriminate|reflexivity
                 |vm_compute; lia|].
  destruct (stopAllThreads_leaves_the_exit_requests_set 5 30 100 w w' Hw')
    as [Hset _].
  split; [exact Hreg|].
  exists w'. split; [exact Hw'|].
  split; apply Hset; rewrite Hreg, !elem_of_cons; auto.
Defined.


(** X19, on the worker: it has left [run()] and set its handle to null, it is
    started again, the new native thread 2 reaches [run()], and the old
    native thread 1 makes its last move. *)
Lemma late_id_reset_hits_the_restarted_thread_witness :
  let w := foldl (λ w s, tramp_step s w) demo_in_run demo_exit in
  let w2 := foldl (λ w s, tramp_step s w) (exec (startThread 1) w)
                  (replicate 5 (2%Z, Returns)) in
  let w3 := tramp_step (1%Z, Returns) w2 in
  reachable w3 ∧
  natives w !! 1%Z = Some (mkNative 1 pcResetId true) ∧
  running 1 w = false ∧
  result (getThreadId 1) w2 = Normal 102%Z ∧
  natives w3 !! 2%Z = Some (mkNative 1 pcRun true) ∧
  running 1 w3 = true ∧
  1 ∈ runningThreads w3 ∧
  result (getThreadId 1) w3 = Normal 0%Z ∧
  result (getCurrentThread 102) w3 ≠ Normal 1.
Proof.
  intros w w2 w3.
  assert (Hreach : reachable w3).
  { apply reach_native, reachable_foldl, reach_startThread;
      [apply demo_exited_reachable|done|by eexists]. }
  assert (Hnull : 1 ≠ null) by discriminate.
  assert (Hold : natives w !! 1%Z = Some (mkNative 1 pcResetId true))
    by (vm_compute; reflexivity).
  assert (Hr : running 1 w = false) by (vm_compute; reflexivity).
  assert (Hout : 1 ∉ runningThreads w) by (vm_compute; apply not_elem_of_nil).
  assert (Hh : createThread_answer
                 (update 1 (set_threadShouldExit_ false) w) 1 ≠ 0%Z)
    by (vm_compute; discriminate).
  assert (Hne : createThread_answer
                  (update 1 (set_threadShouldExit_ false) w) 1 ≠ 1%Z)
    by (vm_compute; discriminate).
  assert (Hid : threadId_of
                  (createThread_answer
                     (update 1 (set_threadShouldExit_ false) w) 1) ≠ 0%Z)
    by (vm_compute; discriminate).
  destruct (late_id_reset_hits_the_restarted_thread 1 1 Returns w
              Hnull Hold Hr Hout Hh Hne Hid)
    as (Hid2 & Hn2 & _ & Hr3 & Hin & Hid3 & Hcur).
  split; [exact Hreach|]. split; [exact Hold|]. split; [exact Hr|].
  split; [exact Hid2|]. split; [exact Hn2|]. split; [exact Hr3|].
  split; [exact Hin|]. split; [exact Hid3|exact Hcur].
Defined.


End MoreDemo.
